(** * Neuro integration SDK (Go): the action lifecycle of the client engine

    A shallow embedding of the [neuro] package: the message types, the
    [Client] with its action registry and send path, the invocation
    pipeline [handleAction], and the [ActionWindow] coordinator.

    Conventions of the embedding.
    - A Go method with receiver [c *Client] is a computation in the monad
      [M] over a [Machine]: the client struct, the host application's
      state (on which handlers act), the log of calls made to the outside
      (transport, logger, handlers) and the goroutines started with [go].
    - A Go [error] result is an [option error]; [None] is [nil].
    - A run-time panic (nil dereference, closing a closed channel) is the
      outcome [Panic].
    - The development has two layers.  The computations in [M] ([send],
      [RegisterActions], [handleAction], [Close], ...) are the bodies of
      the methods, run as one step with the locks they ask for granted.
      The computations in [G] ([send_guarded], [Connect],
      [handleAction_guarded], ...) run the same bodies on a machine that
      carries the two [sync.RWMutex] of the client, [connMu] and
      [actionsMu]; a call that waits for a lock that is held is [Parks].
      What is stated about a connected engine is stated on this second
      layer, because [connected] is only ever set by [Connect], under
      the write side of [connMu].
    - The wire encoding is outside this development: a frame is kept as
      the [Message] that [json.Marshal] would encode, and a JSON payload
      as a [json] tree; marshalling such a value does not fail. *)

From stdpp Require Import gmap strings list fin_maps.

Local Set Warnings "-register-all".
Local Open Scope string_scope.

(** ** JSON values (encoding/json) *)

Inductive json :=
| JNull
| JBool (b : bool)
| JNum (n : Z)
| JString (s : string)
| JArray (l : list json)
| JObject (m : gmap string json).

(** [json.RawMessage]; [None] is the empty (omitted) raw message. *)
Definition RawMessage := option json.

(** ** Message types

    A field keeps its Go name unless another record of this file already
    has a field or a type of that name: [IncomingAction.Name] and [.Data]
    are [ActionName] and [ActionData], [ExecutionResult.Message] is
    [ResultMessage], [ActionSchema.Type] is [Type_], [ClientConfig.Game]
    is [ConfigGame], [ActionWindow.actions] is [w_actions], and the method
    [ActionWindow.End] is [End_]. *)

Record Message := mkMessage {
  Command : string;
  Game : string;
  Data : RawMessage;
}.

Record ActionSchema := mkActionSchema {
  Type_ : string;
  Properties : gmap string json;
  Required : list string;
}.

Record ActionDefinition := mkActionDefinition {
  Name : string;
  Description : string;
  Schema : option ActionSchema;
}.

Record IncomingAction := mkIncomingAction {
  ID : string;
  ActionName : string;
  ActionData : RawMessage;
}.

Record ExecutionResult := mkExecutionResult {
  Successful : bool;
  ResultMessage : string;
}.

Definition NewSuccessResult (message : string) : ExecutionResult :=
  {| Successful := true; ResultMessage := message |}.

Definition NewFailureResult (message : string) : ExecutionResult :=
  {| Successful := false; ResultMessage := message |}.

(** [type Priority string] *)
Definition Priority := string.
Definition PriorityLow : Priority := "low".
Definition PriorityMedium : Priority := "medium".
Definition PriorityHigh : Priority := "high".
Definition PriorityCritical : Priority := "critical".

(** ** Errors

    Go errors are built with [errors.New] and wrapped with
    [fmt.Errorf("...: %w", err)]; errors of the websocket library are
    opaque. *)

Inductive error :=
| errors_New (text : string)
| fmt_Errorf (prefix : string) (cause : error)
| transport_error (text : string).

Fixpoint Error (e : error) : string :=
  match e with
  | errors_New t => t
  | fmt_Errorf p c => p ++ ": " ++ Error c
  | transport_error t => t
  end.

Inductive ErrorKind :=
| ConfigError | StateError | ConnectionError | ValidationError
| WriteError | ReadError | OtherError.

Definition text_in (t : string) (l : list string) : bool :=
  bool_decide (t ∈ l).

(** The package has no error types, only message texts.  [error_kind]
    reads the kinds that section 7 of the specification names off the
    texts that occur in the source.  A [%w] wrapper that only adds
    context ("failed to register actions") has the kind of its cause. *)
Fixpoint error_kind (e : error) : ErrorKind :=
  match e with
  | errors_New t =>
      if text_in t ["game name is required"; "websocket URL is required"]
      then ConfigError
      else if text_in t ["client is closed"; "already connected";
                         "not connected"; "window already registered"]
      then StateError
      else if text_in t ["action name cannot be empty";
                         "must specify at least one action name";
                         "no actions in window"]
      then ValidationError
      else OtherError
  | fmt_Errorf p c =>
      if text_in p ["failed to register actions"] then error_kind c
      else if text_in p ["invalid websocket URL"; "failed to connect"]
      then ConnectionError
      else if text_in p ["failed to send message"] then WriteError
      else if text_in p ["read error"] then ReadError
      else OtherError
  | transport_error _ => OtherError
  end.

Definition fails_with (r : option error) (k : ErrorKind) : Prop :=
  ∃ e, r = Some e ∧ error_kind e = k.

(** ** JSON encoding of the payload structs (struct tags of the source) *)

Definition json_strings (l : list string) : json := JArray (JString <$> l).

Definition json_of_ActionSchema (s : ActionSchema) : json :=
  let m0 : gmap string json := {[ "type" := JString (Type_ s) ]} in
  let m1 := if decide (Properties s = ∅) then m0
            else <["properties" := JObject (Properties s)]> m0 in
  let m2 := match Required s with
            | [] => m1
            | r => <["required" := json_strings r]> m1
            end in
  JObject m2.

Definition json_of_ActionDefinition (d : ActionDefinition) : json :=
  let m0 : gmap string json :=
    <["name" := JString (Name d)]>
      {[ "description" := JString (Description d) ]} in
  JObject match Schema d with
          | None => m0
          | Some s => <["schema" := json_of_ActionSchema s]> m0
          end.

(** ** Outcomes and the engine monad *)

Inductive Res (S A : Type) :=
| Ok (a : A) (s : S)
| Panic (why : string).
Arguments Ok {S A} a s.
Arguments Panic {S A} why.

Definition ST (S A : Type) : Type := S → Res S A.

Definition ret {S A} (a : A) : ST S A := λ s, Ok a s.

Definition bind {S A B} (m : ST S A) (k : A → ST S B) : ST S B :=
  λ s, match m s with
       | Ok a s' => k a s'
       | Panic why => Panic why
       end.

Definition panic {S A} (why : string) : ST S A := λ _, Panic why.
Definition get {S} : ST S S := λ s, Ok s s.
Definition modify {S} (f : S → S) : ST S unit := λ s, Ok tt (f s).

Notation "x <~ m ;; k" := (bind m (λ x, k))
  (at level 100, m at next level, k at level 200, right associativity).
Notation "m >>> k" := (bind m (λ _, k))
  (at level 100, k at level 200, right associativity).

(** ** The engine *)

Section Engine.

(** [World] is the state of the host application, on which handlers
    act; [HState] is the validated state ([interface{}]) that [Validate]
    hands to [Execute]. *)
Context {World HState : Type}.

(** [ActionHandler] interface. *)
Record ActionHandler := mkActionHandler {
  GetName : string;
  GetDescription : string;
  GetSchema : option ActionSchema;
  Validate : RawMessage → World → (HState * ExecutionResult) * World;
  Execute : HState → World → World;
}.

(** The collaborators the package calls: the websocket connection and
    [json.Unmarshal] on inbound frames. *)
Record Extern := mkExtern {
  Conn : Type;
  WriteMessage : Conn → Message → Conn * option error;
  ConnClose : Conn → Conn * option error;
  Unmarshal_Message : string → Message + error;
  Unmarshal_IncomingAction : RawMessage → IncomingAction + error;
}.

(** The order in which [range] visits a map is unspecified: it is some
    enumeration of the map's values. *)
Record RangeOrder := mkRangeOrder {
  map_range :> gmap string ActionHandler → list ActionHandler;
  map_range_perm : ∀ m, map_range m ≡ₚ (map_to_list m).*2;
}.

Variable X : Extern.
Variable range : RangeOrder.

Record ClientConfig := mkClientConfig {
  ConfigGame : string;
  WebsocketURL : string;
}.

Record Client := mkClient {
  config : ClientConfig;
  conn : option (Conn X);
  actions : gmap string ActionHandler;
  errChan : list error;
  closeChan : bool;  (* has [close(c.closeChan)] run *)
  connected : bool;
  closed : bool;
}.

(** [ForceOption]: a function that updates a [forceConfig] in place. *)
Record forceConfig := mkForceConfig {
  state : string;
  ephemeralContext : bool;
  priority : Priority;
}.

Definition ForceOption := forceConfig → forceConfig.

(** Calls that leave the package. *)
Inductive Event :=
| EvWrite (msg : Message) (err : option error)
| EvConnClose (err : option error)
| EvLog (line : string)
| EvValidate (h : ActionHandler) (data : RawMessage)
| EvExecute (h : ActionHandler) (st : HState).

(** Bodies started with [go]. *)
Inductive Goroutine :=
| GoHandleAction (action : IncomingAction)
| GoResendRegisteredActions
| GoForceActions (query : string) (names : list string)
                 (opts : list ForceOption).

Record Machine := mkMachine {
  client : Client;
  world : World;
  trace : list Event;
  spawned : list Goroutine;
}.

Definition M (A : Type) : Type := ST Machine A.

Definition getc : M Client := λ s, Ok (client s) s.

Definition modc (f : Client → Client) : M unit :=
  modify (λ s, {| client := f (client s); world := world s;
                  trace := trace s; spawned := spawned s |}).

Definition emit (ev : Event) : M unit :=
  modify (λ s, {| client := client s; world := world s;
                  trace := trace s ++ [ev]; spawned := spawned s |}).

Definition go (g : Goroutine) : M unit :=
  modify (λ s, {| client := client s; world := world s;
                  trace := trace s; spawned := spawned s ++ [g] |}).

Definition logf (line : string) : M unit := emit (EvLog line).

Definition set_conn (k : option (Conn X)) (c : Client) : Client :=
  {| config := config c; conn := k; actions := actions c;
     errChan := errChan c; closeChan := closeChan c;
     connected := connected c; closed := closed c |}.

Definition set_actions (a : gmap string ActionHandler) (c : Client)
  : Client :=
  {| config := config c; conn := conn c; actions := a;
     errChan := errChan c; closeChan := closeChan c;
     connected := connected c; closed := closed c |}.

Definition set_closed (c : Client) : Client :=
  {| config := config c; conn := conn c; actions := actions c;
     errChan := errChan c; closeChan := closeChan c;
     connected := connected c; closed := true |}.

Definition set_closeChan (c : Client) : Client :=
  {| config := config c; conn := conn c; actions := actions c;
     errChan := errChan c; closeChan := true;
     connected := connected c; closed := closed c |}.

(** [NewClient] *)
Definition NewClient (cfg : ClientConfig) : Client + error :=
  if decide (ConfigGame cfg = "") then
    inr (errors_New "game name is required")
  else if decide (WebsocketURL cfg = "") then
    inr (errors_New "websocket URL is required")
  else
    inl {| config := cfg; conn := None; actions := ∅; errChan := [];
           closeChan := false; connected := false; closed := false |}.

(** *** Message sending *)

Definition with_Game (msg : Message) (g : string) : Message :=
  {| Command := Command msg; Game := g; Data := Data msg |}.

(** The body of [send], between [c.connMu.RLock()] and the deferred
    [RUnlock]; [send_guarded] below adds the lock. *)
Definition send (msg : Message) : M (option error) :=
  c <~ getc ;;
  if negb (connected c) then ret (Some (errors_New "not connected"))
  else
    let msg := with_Game msg (ConfigGame (config c)) in
    match conn c with
    | None => panic "nil pointer dereference"
    | Some k =>
        let '(k', werr) := WriteMessage X k msg in
        modc (set_conn (Some k')) >>>
        emit (EvWrite msg werr) >>>
        match werr with
        | Some e => ret (Some (fmt_Errorf "failed to send message" e))
        | None => logf ("Sent: " ++ Command msg) >>> ret None
        end
    end.

Definition Startup : M (option error) :=
  send {| Command := "startup"; Game := ""; Data := None |}.

Definition SendContext (message : string) (silent : bool)
  : M (option error) :=
  let data : gmap string json :=
    <["message" := JString message]> (<["silent" := JBool silent]> ∅) in
  send {| Command := "context"; Game := ""; Data := Some (JObject data) |}.

Definition SendShutdownReady : M (option error) :=
  send {| Command := "shutdown/ready"; Game := ""; Data := None |}.

Definition SendActionResult (id : string) (success : bool)
    (message : string) : M (option error) :=
  let data : gmap string json :=
    <["id" := JString id]>
      (<["success" := JBool success]>
         (<["message" := JString message]> ∅)) in
  send {| Command := "action/result"; Game := "";
          Data := Some (JObject data) |}.

(** *** Action management *)

Definition definition_of (h : ActionHandler) : ActionDefinition :=
  {| Name := GetName h; Description := GetDescription h;
     Schema := GetSchema h |}.

(** The [for _, h := range handlers] loop of [RegisterActions]; [inl]
    is the early [return] of the loop body. *)
Fixpoint RegisterActions_loop (handlers : list ActionHandler)
    (acts : list ActionDefinition) : M (error + list ActionDefinition) :=
  match handlers with
  | [] => ret (inr acts)
  | h :: rest =>
      let name := GetName h in
      if decide (name = "") then
        ret (inl (errors_New "action name cannot be empty"))
      else
        modc (λ c, set_actions (<[name := h]> (actions c)) c) >>>
        RegisterActions_loop rest (acts ++ [definition_of h])
  end.

Definition register_payload (acts : list ActionDefinition) : json :=
  JObject {[ "actions" := JArray (json_of_ActionDefinition <$> acts) ]}.

Definition RegisterActions (handlers : list ActionHandler)
  : M (option error) :=
  match handlers with
  | [] => ret None
  | _ =>
      r <~ RegisterActions_loop handlers [] ;;
      match r with
      | inl e => ret (Some e)
      | inr acts =>
          send {| Command := "actions/register"; Game := "";
                  Data := Some (register_payload acts) |}
      end
  end.

Definition RegisterAction (handler : ActionHandler) : M (option error) :=
  RegisterActions [handler].

Definition UnregisterActions (names : list string) : M (option error) :=
  match names with
  | [] => ret None
  | _ =>
      modc (λ c, set_actions
                   (foldl (λ reg name, delete name reg) (actions c) names)
                   c) >>>
      let data : gmap string json :=
        {[ "action_names" := json_strings names ]} in
      send {| Command := "actions/unregister"; Game := "";
              Data := Some (JObject data) |}
  end.

Definition UnregisterAction (name : string) : M (option error) :=
  UnregisterActions [name].

Definition resendRegisteredActions : M unit :=
  c <~ getc ;;
  let handlers := range (actions c) in
  if bool_decide (0 < length handlers) then
    err <~ RegisterActions handlers ;;
    match err with
    | Some e => logf ("Failed to resend registered actions: " ++ Error e)
    | None => ret tt
    end
  else ret tt.

(** *** Forcing *)

Definition WithState (s : string) : ForceOption :=
  λ c, {| state := s; ephemeralContext := ephemeralContext c;
          priority := priority c |}.

Definition WithEphemeralContext (ephemeral : bool) : ForceOption :=
  λ c, {| state := state c; ephemeralContext := ephemeral;
          priority := priority c |}.

Definition WithPriority (p : Priority) : ForceOption :=
  λ c, {| state := state c; ephemeralContext := ephemeralContext c;
          priority := p |}.

Definition default_forceConfig : forceConfig :=
  {| state := ""; ephemeralContext := false; priority := PriorityLow |}.

Definition apply_opts (opts : list ForceOption) : forceConfig :=
  foldl (λ cfg opt, opt cfg) default_forceConfig opts.

Definition force_payload (query : string) (actionNames : list string)
    (cfg : forceConfig) : gmap string json :=
  let data : gmap string json :=
    <["query" := JString query]>
      (<["action_names" := json_strings actionNames]>
         (<["ephemeral_context" := JBool (ephemeralContext cfg)]>
            (<["priority" := JString (priority cfg)]> ∅))) in
  if decide (state cfg = "") then data
  else <["state" := JString (state cfg)]> data.

Definition ForceActions (query : string) (actionNames : list string)
    (opts : list ForceOption) : M (option error) :=
  match actionNames with
  | [] => ret (Some (errors_New "must specify at least one action name"))
  | _ =>
      let cfg := apply_opts opts in
      send {| Command := "actions/force"; Game := "";
              Data := Some (JObject (force_payload query actionNames cfg)) |}
  end.

(** *** Dispatch of inbound frames *)

Definition call_Validate (h : ActionHandler) (data : RawMessage)
  : M (HState * ExecutionResult) :=
  λ s, let '(r, w) := Validate h data (world s) in
       Ok r {| client := client s; world := w;
               trace := trace s ++ [EvValidate h data];
               spawned := spawned s |}.

Definition call_Execute (h : ActionHandler) (st : HState) : M unit :=
  modify (λ s, {| client := client s; world := Execute h st (world s);
                  trace := trace s ++ [EvExecute h st];
                  spawned := spawned s |}).

Definition handleAction (action : IncomingAction) : M unit :=
  c <~ getc ;;
  match actions c !! ActionName action with
  | None =>
      SendActionResult (ID action) false
        ("Unknown action: " ++ ActionName action) >>>
      ret tt
  | Some handler =>
      v <~ call_Validate handler (ActionData action) ;;
      let '(st, result) := v in
      err <~ SendActionResult (ID action) (Successful result)
               (ResultMessage result) ;;
      match err with
      | Some e => logf ("Failed to send action result: " ++ Error e)
      | None => ret tt
      end >>>
      if Successful result then call_Execute handler st else ret tt
  end.

Definition handleMessage (msgBytes : string) : M (option error) :=
  match Unmarshal_Message X msgBytes with
  | inr e => ret (Some (fmt_Errorf "failed to parse message" e))
  | inl msg =>
      logf ("Received: " ++ Command msg) >>>
      if decide (Command msg = "action") then
        match Unmarshal_IncomingAction X (Data msg) with
        | inr e => ret (Some (fmt_Errorf "failed to parse action data" e))
        | inl action => go (GoHandleAction action) >>> ret None
        end
      else if decide (Command msg = "actions/reregister_all") then
        go GoResendRegisteredActions >>> ret None
      else
        logf ("Unhandled command: " ++ Command msg) >>> ret None
  end.

(** *** Close *)

(** The body of [Close], between [c.connMu.Lock()] and the deferred
    [Unlock]; [Close_guarded] below adds the lock. *)
Definition Close : M (option error) :=
  c <~ getc ;;
  if closed c then ret None
  else
    modc set_closed >>>
    (if closeChan c then panic "close of closed channel"
     else modc set_closeChan) >>>
    match conn c with
    | Some k =>
        let '(k', cerr) := ConnClose X k in
        modc (set_conn (Some k')) >>>
        emit (EvConnClose cerr) >>>
        ret cerr
    | None => ret None
    end.

(** *** Action window *)

Record ActionWindow := mkActionWindow {
  w_actions : list ActionHandler;
  forceOpts : list ForceOption;
  query : string;
  registered : bool;
}.

Definition NewActionWindow : ActionWindow :=
  {| w_actions := []; forceOpts := []; query := ""; registered := false |}.

Definition AddAction (w : ActionWindow) (handler : ActionHandler)
  : M ActionWindow :=
  if registered w then
    logf "Cannot add action to registered window" >>> ret w
  else
    ret {| w_actions := w_actions w ++ [handler];
           forceOpts := forceOpts w; query := query w;
           registered := registered w |}.

Definition SetForce (w : ActionWindow) (q : string)
    (opts : list ForceOption) : M ActionWindow :=
  if registered w then
    logf "Cannot modify registered window" >>> ret w
  else
    ret {| w_actions := w_actions w; forceOpts := opts; query := q;
           registered := registered w |}.

Definition mark_registered (w : ActionWindow) : ActionWindow :=
  {| w_actions := w_actions w; forceOpts := forceOpts w;
     query := query w; registered := true |}.

(** The goroutine started by [Register] sleeps 100 ms and then calls
    [ForceActions]; it is recorded in [spawned] with the values it
    captures. *)
Definition Register (w : ActionWindow) : M (option error * ActionWindow) :=
  if registered w then
    ret (Some (errors_New "window already registered"), w)
  else
    match w_actions w with
    | [] => ret (Some (errors_New "no actions in window"), w)
    | _ =>
        let w := mark_registered w in
        err <~ RegisterActions (w_actions w) ;;
        match err with
        | Some e =>
            ret (Some (fmt_Errorf "failed to register actions" e), w)
        | None =>
            let names := GetName <$> w_actions w in
            go (GoForceActions (query w) names (forceOpts w)) >>>
            ret (None, w)
        end
    end.

Definition End_ (w : ActionWindow) : M (option error) :=
  if negb (registered w) then ret None
  else UnregisterActions (GetName <$> w_actions w).

(** The body of each goroutine. *)
Definition run_goroutine (g : Goroutine) : M unit :=
  match g with
  | GoHandleAction action => handleAction action
  | GoResendRegisteredActions => resendRegisteredActions
  | GoForceActions q names opts =>
      err <~ ForceActions q names opts ;;
      match err with
      | Some e => logf ("Failed to force actions: " ++ Error e)
      | None => ret tt
      end
  end.

(** *** The read loop

    [ReadMessage] is the blocking read of the websocket connection: it
    yields the next frame or an error; it is a parameter of the loop.  [errChan] is a channel of
    capacity 8; a send on a full channel parks the goroutine. *)

Definition Reader : Type := Conn X → Conn X * (string + error).

Definition errChan_cap : nat := 8.

Definition push_errChan (e : error) (c : Client) : Client :=
  {| config := config c; conn := conn c; actions := actions c;
     errChan := errChan c ++ [e]; closeChan := closeChan c;
     connected := connected c; closed := closed c |}.

(** How a run of the loop ends: it returned, it is parked on the send to
    a full [errChan], or it is still going round. *)
Inductive LoopEnd := LoopReturned | LoopParked | LoopRunning.

(** One pass through the body of the [for]; [None] is "go round again". *)
Definition readLoop_body (ReadMessage : Reader) : M (option LoopEnd) :=
  c <~ getc ;;
  if closeChan c then ret (Some LoopReturned)
  else
    match conn c with
    | None => panic "nil pointer dereference"
    | Some k =>
        let '(k', r) := ReadMessage k in
        modc (set_conn (Some k')) >>>
        match r with
        | inr e =>
            if closed c then ret (Some LoopReturned)
            else if bool_decide (length (errChan c) < errChan_cap) then
              modc (push_errChan (fmt_Errorf "read error" e)) >>>
              ret (Some LoopReturned)
            else ret (Some LoopParked)
        | inl msgBytes =>
            err <~ handleMessage msgBytes ;;
            match err with
            | Some e => logf ("Error handling message: " ++ Error e)
            | None => ret tt
            end >>>
            ret None
        end
    end.

Fixpoint readLoop (ReadMessage : Reader) (rounds : nat) : M LoopEnd :=
  match rounds with
  | 0 => ret LoopRunning
  | S rounds =>
      r <~ readLoop_body ReadMessage ;;
      match r with
      | Some e => ret e
      | None => readLoop ReadMessage rounds
      end
  end.

(** *** The client with its locks

    [Connect], [send] and [Close] take [connMu]; [RegisterActions],
    [UnregisterActions], [resendRegisteredActions] and [handleAction]
    take [actionsMu].  A [sync.RWMutex] is not reentrant: [Lock] waits
    while the lock is held in any mode, and [RLock] waits while a writer
    holds it.  A goroutine that waits for a lock it holds itself is
    parked for good.  [Guarded] is the machine with the state of the two
    locks and the number of [readLoop] goroutines started. *)

Record RWMutex := mkRWMutex {
  writer : bool;
  readers : nat;
}.

Record Guarded := mkGuarded {
  inner : Machine;
  connMu : RWMutex;
  actionsMu : RWMutex;
  readLoops : nat;
}.

Inductive Run (A : Type) :=
| Returns (a : A) (g : Guarded)
| Panics (why : string)
| Parks (g : Guarded).
Arguments Returns {A} a g.
Arguments Panics {A} why.
Arguments Parks {A} g.

Definition G (A : Type) : Type := Guarded → Run A.

Definition retG {A} (a : A) : G A := λ g, Returns a g.

Definition bindG {A B} (f : G A) (k : A → G B) : G B :=
  λ g, match f g with
       | Returns a g' => k a g'
       | Panics why => Panics why
       | Parks g' => Parks g'
       end.

(** A method of the lock-free model run on the guarded machine. *)
Definition lift {A} (f : M A) : G A :=
  λ g, match f (inner g) with
       | Ok a m => Returns a {| inner := m; connMu := connMu g;
                                actionsMu := actionsMu g;
                                readLoops := readLoops g |}
       | Panic why => Panics why
       end.

Definition set_connMu (mu : RWMutex) (g : Guarded) : Guarded :=
  {| inner := inner g; connMu := mu; actionsMu := actionsMu g;
     readLoops := readLoops g |}.

Definition Lock : G unit :=
  λ g, if writer (connMu g) || bool_decide (0 < readers (connMu g))
       then Parks g
       else Returns tt (set_connMu {| writer := true; readers := 0 |} g).

Definition Unlock : G unit :=
  λ g, if writer (connMu g)
       then Returns tt (set_connMu {| writer := false;
                                      readers := readers (connMu g) |} g)
       else Panics "sync: Unlock of unlocked RWMutex".

Definition RLock : G unit :=
  λ g, if writer (connMu g) then Parks g
       else Returns tt (set_connMu {| writer := false;
                                      readers := S (readers (connMu g)) |} g).

Definition RUnlock : G unit :=
  λ g, match readers (connMu g) with
       | 0 => Panics "sync: RUnlock of unlocked RWMutex"
       | S n => Returns tt (set_connMu {| writer := writer (connMu g);
                                          readers := n |} g)
       end.

(** [c.connMu.RLock(); defer c.connMu.RUnlock()] around the body of
    [send]. *)
Definition send_guarded (msg : Message) : G (option error) :=
  bindG RLock (λ _,
  bindG (lift (send msg)) (λ r,
  bindG RUnlock (λ _, retG r))).

Definition Startup_guarded : G (option error) :=
  send_guarded {| Command := "startup"; Game := ""; Data := None |}.

(** [c.connMu.Lock(); defer c.connMu.Unlock()] around the body of
    [Close]. *)
Definition Close_guarded : G (option error) :=
  bindG Lock (λ _,
  bindG (lift Close) (λ r,
  bindG Unlock (λ _, retG r))).

(** [net/url] and the websocket dialer. *)
Record Dialer := mkDialer {
  url_Parse : string → string + error;
  Dial : string → Conn X + error;
}.

Definition set_connected (k : Conn X) (c : Client) : Client :=
  {| config := config c; conn := Some k; actions := actions c;
     errChan := errChan c; closeChan := closeChan c;
     connected := true; closed := closed c |}.

Definition go_readLoop : G unit :=
  λ g, Returns tt {| inner := inner g; connMu := connMu g;
                     actionsMu := actionsMu g;
                     readLoops := S (readLoops g) |}.

(** The body of [Connect], between [Lock] and the deferred [Unlock]. *)
Definition Connect_body (D : Dialer) : G (option error) :=
  bindG (lift getc) (λ c,
  if closed c then retG (Some (errors_New "client is closed"))
  else if connected c then retG (Some (errors_New "already connected"))
  else
    match url_Parse D (WebsocketURL (config c)) with
    | inr e => retG (Some (fmt_Errorf "invalid websocket URL" e))
    | inl u =>
        match Dial D u with
        | inr e => retG (Some (fmt_Errorf "failed to connect" e))
        | inl k =>
            bindG (lift (modc (set_connected k))) (λ _,
            bindG go_readLoop (λ _,
            bindG Startup_guarded (λ err,
            bindG (match err with
                   | Some e =>
                       lift (logf ("Failed to send startup message: "
                                   ++ Error e))
                   | None => retG tt
                   end) (λ _,
            retG None))))
        end
    end).

Definition Connect (D : Dialer) : G (option error) :=
  bindG Lock (λ _,
  bindG (Connect_body D) (λ r,
  bindG Unlock (λ _, retG r))).

(** *** The methods with their locks

    The same four operations on [actionsMu]. *)

Definition set_actionsMu (mu : RWMutex) (g : Guarded) : Guarded :=
  {| inner := inner g; connMu := connMu g; actionsMu := mu;
     readLoops := readLoops g |}.

Definition actions_Lock : G unit :=
  λ g, if writer (actionsMu g) || bool_decide (0 < readers (actionsMu g))
       then Parks g
       else Returns tt (set_actionsMu {| writer := true; readers := 0 |} g).

Definition actions_Unlock : G unit :=
  λ g, if writer (actionsMu g)
       then Returns tt (set_actionsMu
                          {| writer := false;
                             readers := readers (actionsMu g) |} g)
       else Panics "sync: Unlock of unlocked RWMutex".

Definition actions_RLock : G unit :=
  λ g, if writer (actionsMu g) then Parks g
       else Returns tt (set_actionsMu
                          {| writer := false;
                             readers := S (readers (actionsMu g)) |} g).

Definition actions_RUnlock : G unit :=
  λ g, match readers (actionsMu g) with
       | 0 => Panics "sync: RUnlock of unlocked RWMutex"
       | S n => Returns tt (set_actionsMu
                              {| writer := writer (actionsMu g);
                                 readers := n |} g)
       end.

Definition SendContext_guarded (message : string) (silent : bool)
  : G (option error) :=
  let data : gmap string json :=
    <["message" := JString message]> (<["silent" := JBool silent]> ∅) in
  send_guarded {| Command := "context"; Game := "";
                  Data := Some (JObject data) |}.

Definition SendShutdownReady_guarded : G (option error) :=
  send_guarded {| Command := "shutdown/ready"; Game := ""; Data := None |}.

Definition SendActionResult_guarded (id : string) (success : bool)
    (message : string) : G (option error) :=
  let data : gmap string json :=
    <["id" := JString id]>
      (<["success" := JBool success]>
         (<["message" := JString message]> ∅)) in
  send_guarded {| Command := "action/result"; Game := "";
                  Data := Some (JObject data) |}.

(** [RegisterActions]: [actionsMu] is taken for writing after the test
    for an empty list, and held, by the deferred [Unlock], until the
    method returns; the [send] at the end runs under it. *)
Definition RegisterActions_guarded (handlers : list ActionHandler)
  : G (option error) :=
  match handlers with
  | [] => retG None
  | _ =>
      bindG actions_Lock (λ _,
      bindG (lift (RegisterActions_loop handlers [])) (λ r,
      bindG (match r with
             | inl e => retG (Some e)
             | inr acts =>
                 send_guarded {| Command := "actions/register"; Game := "";
                                 Data := Some (register_payload acts) |}
             end) (λ res,
      bindG actions_Unlock (λ _, retG res))))
  end.

Definition UnregisterActions_guarded (names : list string)
  : G (option error) :=
  match names with
  | [] => retG None
  | _ =>
      bindG actions_Lock (λ _,
      bindG (lift (modc (λ c, set_actions
                                (foldl (λ reg name, delete name reg)
                                   (actions c) names) c))) (λ _,
      let data : gmap string json :=
        {[ "action_names" := json_strings names ]} in
      bindG (send_guarded {| Command := "actions/unregister"; Game := "";
                             Data := Some (JObject data) |}) (λ res,
      bindG actions_Unlock (λ _, retG res))))
  end.

(** [resendRegisteredActions] reads the registry under the read side of
    [actionsMu], releases it, and then calls [RegisterActions]. *)
Definition resendRegisteredActions_guarded : G unit :=
  bindG actions_RLock (λ _,
  bindG (lift getc) (λ c,
  let handlers := range (actions c) in
  bindG actions_RUnlock (λ _,
  if bool_decide (0 < length handlers) then
    bindG (RegisterActions_guarded handlers) (λ err,
    match err with
    | Some e =>
        lift (logf ("Failed to resend registered actions: " ++ Error e))
    | None => retG tt
    end)
  else retG tt))).

Definition ForceActions_guarded (query : string)
    (actionNames : list string) (opts : list ForceOption)
  : G (option error) :=
  match actionNames with
  | [] => retG (Some (errors_New "must specify at least one action name"))
  | _ =>
      let cfg := apply_opts opts in
      send_guarded
        {| Command := "actions/force"; Game := "";
           Data := Some (JObject (force_payload query actionNames cfg)) |}
  end.

(** [handleAction] looks the handler up under the read side of
    [actionsMu] and releases it before it calls the handler. *)
Definition handleAction_guarded (action : IncomingAction) : G unit :=
  bindG actions_RLock (λ _,
  bindG (lift getc) (λ c,
  let found := actions c !! ActionName action in
  bindG actions_RUnlock (λ _,
  match found with
  | None =>
      bindG (SendActionResult_guarded (ID action) false
               ("Unknown action: " ++ ActionName action)) (λ _,
      retG tt)
  | Some handler =>
      bindG (lift (call_Validate handler (ActionData action))) (λ v,
      let '(st, result) := v in
      bindG (SendActionResult_guarded (ID action) (Successful result)
               (ResultMessage result)) (λ err,
      bindG (match err with
             | Some e =>
                 lift (logf ("Failed to send action result: " ++ Error e))
             | None => retG tt
             end) (λ _,
      if Successful result then lift (call_Execute handler st)
      else retG tt)))
  end))).


(** *** Runs of calls

    The calls that the host program, or the read loop on its behalf,
    makes on a client.  [runs] makes them one after the other, each from
    the state in which the one before it returned or parked: a parked
    call keeps the locks it holds, and the other goroutines go on. *)
Inductive GuardedCall :=
| DoConnect (D : Dialer)
| DoClose
| DoStartup
| DoSendContext (message : string) (silent : bool)
| DoSendShutdownReady
| DoSendActionResult (id : string) (success : bool) (message : string)
| DoRegisterActions (handlers : list ActionHandler)
| DoUnregisterActions (names : list string)
| DoForceActions (q : string) (names : list string)
                 (opts : list ForceOption)
| DoHandleAction (action : IncomingAction)
| DoResendRegisteredActions.

Definition discard {A} (f : G A) : G unit := bindG f (λ _, retG tt).

Definition run_guarded (call : GuardedCall) : G unit :=
  match call with
  | DoConnect D => discard (Connect D)
  | DoClose => discard Close_guarded
  | DoStartup => discard Startup_guarded
  | DoSendContext message silent =>
      discard (SendContext_guarded message silent)
  | DoSendShutdownReady => discard SendShutdownReady_guarded
  | DoSendActionResult id success message =>
      discard (SendActionResult_guarded id success message)
  | DoRegisterActions handlers => discard (RegisterActions_guarded handlers)
  | DoUnregisterActions names => discard (UnregisterActions_guarded names)
  | DoForceActions q names opts =>
      discard (ForceActions_guarded q names opts)
  | DoHandleAction action => handleAction_guarded action
  | DoResendRegisteredActions => resendRegisteredActions_guarded
  end.

(** [None]: one of the calls panicked. *)
Fixpoint runs (calls : list GuardedCall) (g : Guarded) : option Guarded :=
  match calls with
  | [] => Some g
  | call :: rest =>
      match run_guarded call g with
      | Returns _ g' => runs rest g'
      | Parks g' => runs rest g'
      | Panics _ => None
      end
  end.

(** ** Vocabulary of the statements

    Well-formed machines, the events of a write, the relation of one
    [send], sequences of operations, and the registry after a run of
    insertions. *)

(** The states the package can be in: a connected client holds a
    connection, and [closeChan] is closed exactly when [closed] is set. *)
Definition wf (m : Machine) : Prop :=
  (connected (client m) = true → is_Some (conn (client m))) ∧
  closeChan (client m) = closed (client m).

Definition is_write (ev : Event) : bool :=
  match ev with EvWrite _ _ => true | _ => false end.

Definition is_handler_call (ev : Event) : bool :=
  match ev with EvValidate _ _ | EvExecute _ _ => true | _ => false end.

(** What one successful pass through [send] leaves in the log. *)
Definition write_events (msg : Message) (werr : option error) : list Event :=
  EvWrite msg werr ::
  match werr with
  | None => [EvLog ("Sent: " ++ Command msg)]
  | Some _ => []
  end.

Definition write_result (werr : option error) : option error :=
  match werr with
  | Some e => Some (fmt_Errorf "failed to send message" e)
  | None => None
  end.

Definition after_write (m : Machine) (k' : Conn X) (evs : list Event)
  : Machine :=
  {| client := set_conn (Some k') (client m); world := world m;
     trace := trace m ++ evs; spawned := spawned m |}.

(** [sends m msg r m']: one call [c.send(msg)] from [m] returns [r] and
    leaves [m']. *)
Inductive sends (m : Machine) (msg : Message)
  : option error → Machine → Prop :=
| sends_refused :
    connected (client m) = false →
    sends m msg (Some (errors_New "not connected")) m
| sends_written k k' werr :
    connected (client m) = true →
    conn (client m) = Some k →
    WriteMessage X k (with_Game msg (ConfigGame (config (client m))))
      = (k', werr) →
    sends m msg (write_result werr)
      (after_write m k'
         (write_events (with_Game msg (ConfigGame (config (client m))))
            werr)).

Definition game_ok (g : string) (ev : Event) : Prop :=
  match ev with
  | EvWrite msg _ => Game msg = g
  | _ => True
  end.

(** [steps_ok f]: from a well-formed machine, [f] returns, keeps the
    machine well-formed and the configuration fixed, and every frame it
    writes carries the configured game. *)
Definition steps_ok {A} (f : M A) : Prop :=
  ∀ m, wf m →
    ∃ a m', f m = Ok a m' ∧ wf m' ∧
      config (client m') = config (client m) ∧
      ∃ evs : list Event, trace m' = (trace m ++ evs)%list ∧
             Forall (game_ok (ConfigGame (config (client m)))) evs.

(** The operations of the package, as a host program or the read loop
    invokes them; [CallSend] is the internal [send] with an arbitrary
    envelope. *)
Inductive Call :=
| CallSend (msg : Message)
| CallStartup
| CallSendContext (message : string) (silent : bool)
| CallSendShutdownReady
| CallSendActionResult (id : string) (success : bool) (message : string)
| CallRegisterActions (handlers : list ActionHandler)
| CallUnregisterActions (names : list string)
| CallForceActions (q : string) (names : list string)
                   (opts : list ForceOption)
| CallHandleMessage (frame : string)
| CallGoroutine (g : Goroutine)
| CallClose
| CallWindowRegister (w : ActionWindow)
| CallWindowEnd (w : ActionWindow).

Definition run_call (call : Call) : M unit :=
  match call with
  | CallSend msg => send msg >>> ret tt
  | CallStartup => Startup >>> ret tt
  | CallSendContext message silent => SendContext message silent >>> ret tt
  | CallSendShutdownReady => SendShutdownReady >>> ret tt
  | CallSendActionResult id success message =>
      SendActionResult id success message >>> ret tt
  | CallRegisterActions handlers => RegisterActions handlers >>> ret tt
  | CallUnregisterActions names => UnregisterActions names >>> ret tt
  | CallForceActions q names opts => ForceActions q names opts >>> ret tt
  | CallHandleMessage frame => handleMessage frame >>> ret tt
  | CallGoroutine g => run_goroutine g
  | CallClose => Close >>> ret tt
  | CallWindowRegister w => Register w >>> ret tt
  | CallWindowEnd w => End_ w >>> ret tt
  end.

Fixpoint run_calls (calls : list Call) : M unit :=
  match calls with
  | [] => ret tt
  | call :: rest => run_call call >>> run_calls rest
  end.

(** A freshly constructed client. *)
Definition start (c : Client) (w : World) : Machine :=
  {| client := c; world := w; trace := []; spawned := [] |}.

(** The [action/result] envelope as it reaches the transport. *)
Definition action_result_envelope (game id : string) (success : bool)
    (message : string) : Message :=
  {| Command := "action/result"; Game := game;
     Data := Some (JObject (<["id" := JString id]>
                              (<["success" := JBool success]>
                                 (<["message" := JString message]> ∅)))) |}.

Definition no_handler_call (ev : Event) : Prop := is_handler_call ev = false.

(** The registry after the loop of [RegisterActions] has inserted
    [handlers] in order. *)
Definition insert_all (handlers : list ActionHandler)
    (reg : gmap string ActionHandler) : gmap string ActionHandler :=
  foldl (λ reg h, <[GetName h := h]> reg) reg handlers.

(** The last handler of the list that bears [name]. *)
Definition last_named (name : string) (handlers : list ActionHandler)
  : option ActionHandler :=
  last (filter (λ h, GetName h = name) handlers).

Definition with_actions (m : Machine) (reg : gmap string ActionHandler)
  : Machine :=
  {| client := set_actions reg (client m); world := world m;
     trace := trace m; spawned := spawned m |}.

Definition named (h : ActionHandler) : Prop := GetName h ≠ "".

(** The options a caller outside the package can build: [forceConfig] is
    unexported, so every [ForceOption] comes from one of the three
    constructors. *)
Inductive OptionSpec :=
| SetState (s : string)
| SetEphemeralContext (b : bool)
| SetPriority (p : Priority).

Definition option_of (o : OptionSpec) : ForceOption :=
  match o with
  | SetState s => WithState s
  | SetEphemeralContext b => WithEphemeralContext b
  | SetPriority p => WithPriority p
  end.

Definition sets_state (o : OptionSpec) : option string :=
  match o with SetState s => Some s | _ => None end.
Definition sets_ephemeral (o : OptionSpec) : option bool :=
  match o with SetEphemeralContext b => Some b | _ => None end.
Definition sets_priority (o : OptionSpec) : option Priority :=
  match o with SetPriority p => Some p | _ => None end.

(** The value a field ends with: the last one set, else the default. *)
Definition last_set {A} (f : OptionSpec → option A) (dflt : A)
    (specs : list OptionSpec) : A :=
  default dflt (last (omap f specs)).

(** The send-style operations of the client. *)
Inductive SendOp :=
| OpSendContext (message : string) (silent : bool)
| OpRegisterActions (handlers : list ActionHandler)
| OpForceActions (q : string) (names : list string)
                 (opts : list ForceOption)
| OpSendActionResult (id : string) (success : bool) (message : string)
| OpSendShutdownReady
| OpStartup.

Definition run_send_op (op : SendOp) : M (option error) :=
  match op with
  | OpSendContext message silent => SendContext message silent
  | OpRegisterActions handlers => RegisterActions handlers
  | OpForceActions q names opts => ForceActions q names opts
  | OpSendActionResult id success message =>
      SendActionResult id success message
  | OpSendShutdownReady => SendShutdownReady
  | OpStartup => Startup
  end.

(** The operation's own argument checks let it through to [send]. *)
Definition reaches_send (op : SendOp) : Prop :=
  match op with
  | OpRegisterActions handlers => handlers ≠ [] ∧ Forall named handlers
  | OpForceActions _ names _ => names ≠ []
  | _ => True
  end.

(** The operation's own argument checks reject it. *)
Definition fails_validation (op : SendOp) : Prop :=
  match op with
  | OpRegisterActions handlers => ¬ Forall named handlers
  | OpForceActions _ names _ => names = []
  | _ => False
  end.

(** ** The send path *)

(** Every key of the registry is the name, not empty, of the handler it
    holds: what [RegisterActions] establishes entry by entry. *)
Definition registry_ok (reg : gmap string ActionHandler) : Prop :=
  ∀ k h, reg !! k = Some h → GetName h = k ∧ k ≠ "".

(** [keeps_registry f]: from a well-formed machine whose registry is
    [registry_ok], [f] returns and leaves such a machine. *)
Definition keeps_registry {A} (f : M A) : Prop :=
  ∀ m, wf m → registry_ok (actions (client m)) →
    ∃ a m', f m = Ok a m' ∧ wf m' ∧ registry_ok (actions (client m')).

(** The registry after the loop of [UnregisterActions] has deleted
    [names] in order. *)
Definition delete_all (names : list string)
    (reg : gmap string ActionHandler) : gmap string ActionHandler :=
  foldl (λ reg name, delete name reg) reg names.

(** The envelopes of the send operations as they reach the transport. *)
Definition unregister_envelope (game : string) (names : list string)
  : Message :=
  {| Command := "actions/unregister"; Game := game;
     Data := Some (JObject {[ "action_names" := json_strings names ]}) |}.

Definition register_envelope (game : string)
    (handlers : list ActionHandler) : Message :=
  {| Command := "actions/register"; Game := game;
     Data := Some (register_payload (definition_of <$> handlers)) |}.

(** The events a machine logged beyond those of an earlier one. *)
Definition events_since (m m' : Machine) (evs : list Event) : Prop :=
  trace m' = (trace m ++ evs)%list.

Definition is_log (ev : Event) : Prop :=
  match ev with EvLog _ => True | _ => False end.

(** The send-style operations that only send: all but
    [RegisterActions]. *)
Definition only_sends (op : SendOp) : Prop :=
  match op with
  | OpRegisterActions _ => False
  | _ => True
  end.

(** [passive m m' n]: from [m] to [m'] nothing but logging, the start of
    at most [n] goroutines and the report of at most one read error
    happened; the connection may have advanced. *)
Definition passive (m m' : Machine) (n : nat) : Prop :=
  actions (client m') = actions (client m) ∧
  config (client m') = config (client m) ∧
  connected (client m') = connected (client m) ∧
  closed (client m') = closed (client m) ∧
  closeChan (client m') = closeChan (client m) ∧
  (is_Some (conn (client m)) → is_Some (conn (client m'))) ∧
  world m' = world m ∧
  (∃ new : list Event, events_since m m' new ∧ Forall is_log new) ∧
  (∃ gs : list Goroutine,
     spawned m' = (spawned m ++ gs)%list ∧ (length gs ≤ n)%nat) ∧
  (∃ errs : list error,
     errChan (client m') = (errChan (client m) ++ errs)%list ∧
     (length errs ≤ 1)%nat).

(** Nobody holds the connection lock. *)
Definition lock_free (g : Guarded) : Prop :=
  writer (connMu g) = false ∧ readers (connMu g) = 0.

(** Nobody holds the registry lock. *)
Definition registry_free (g : Guarded) : Prop :=
  writer (actionsMu g) = false ∧ readers (actionsMu g) = 0.

(** What a successful dial leaves behind, as [Connect] finds it when it
    goes on to [Startup]: the connection stored, [connected] set, the
    read loop started, and [connMu] held for writing. *)
Definition dialled_under_lock (k : Conn X) (g : Guarded) : Guarded :=
  {| inner := {| client := set_connected k (client (inner g));
                 world := world (inner g);
                 trace := trace (inner g);
                 spawned := spawned (inner g) |};
     connMu := {| writer := true; readers := 0 |};
     actionsMu := actionsMu g;
     readLoops := S (readLoops g) |}.

(** [can_dial D g k]: [Connect] on [g] gets as far as a successful dial
    that yields the connection [k]. *)
Definition can_dial (D : Dialer) (g : Guarded) (k : Conn X) : Prop :=
  lock_free g ∧
  closed (client (inner g)) = false ∧
  connected (client (inner g)) = false ∧
  ∃ u, url_Parse D (WebsocketURL (config (client (inner g)))) = inl u ∧
       Dial D u = inl k.

(** An outside call that does not touch the connection. *)
Definition off_the_wire (ev : Event) : Prop :=
  match ev with
  | EvWrite _ _ | EvConnClose _ => False
  | _ => True
  end.

(** The client as [NewClient] returns it, or as it is as long as no
    dial has succeeded: both locks of the connection free, no connection
    stored. *)
Definition never_dialled (g : Guarded) : Prop :=
  lock_free g ∧
  conn (client (inner g)) = None ∧
  connected (client (inner g)) = false ∧
  closeChan (client (inner g)) = closed (client (inner g)).

(** What every call keeps: between calls nobody reads under [connMu],
    and a client on which [connMu] is not held for writing has no
    connection. *)
Definition dial_invariant (g : Guarded) : Prop :=
  readers (connMu g) = 0 ∧
  closeChan (client (inner g)) = closed (client (inner g)) ∧
  (writer (connMu g) = false →
   connected (client (inner g)) = false ∧ conn (client (inner g)) = None).

Definition held (Φ : RWMutex → Prop) (g : Guarded) : Prop :=
  dial_invariant g ∧ Φ (actionsMu g).

Definition quietly (m m' : Machine) : Prop :=
  ∃ new : list Event,
    trace m' = (trace m ++ new)%list ∧ Forall off_the_wire new.

(** [hoare P f Q]: from a state in [P], [f] does not panic; if it returns
    it leaves a state in [Q], if it parks it leaves the invariant; either
    way nothing went over the wire. *)
Definition hoare {A} (P : Guarded → Prop) (f : G A)
    (Q : A → Guarded → Prop) : Prop :=
  ∀ g, P g →
    match f g with
    | Returns a g' => Q a g' ∧ quietly (inner g) (inner g')
    | Parks g' => dial_invariant g' ∧ quietly (inner g) (inner g')
    | Panics _ => False
    end.

(** A body that leaves the connection fields alone and stays off the
    wire. *)
Definition harmless {A} (f : M A) : Prop :=
  ∀ m, ∃ a m',
    f m = Ok a m' ∧
    conn (client m') = conn (client m) ∧
    connected (client m') = connected (client m) ∧
    closed (client m') = closed (client m) ∧
    closeChan (client m') = closeChan (client m) ∧
    quietly m m'.

Lemma send_not_connected (msg : Message) (m : Machine) :
  connected (client m) = false →
  send msg m = Ok (Some (errors_New "not connected")) m.
Proof.
  intros Hc. unfold send, bind, getc. rewrite Hc. reflexivity.
Qed.

Lemma send_connected (msg : Message) (m : Machine) (k : Conn X) :
  connected (client m) = true →
  conn (client m) = Some k →
  let wire := with_Game msg (ConfigGame (config (client m))) in
  let r := WriteMessage X k wire in
  send msg m = Ok (write_result r.2)
                  (after_write m r.1 (write_events wire r.2)).
Proof.
  intros Hc Hk wire r. unfold send, bind, getc. rewrite Hc, Hk. simpl.
  fold wire. subst r. destruct (WriteMessage X k wire) as [k' [e|]]; simpl.
  - reflexivity.
  - unfold after_write, emit, modc, modify, ret, logf, emit, modify; simpl.
    by rewrite <- app_assoc.
Qed.

Lemma send_sends (msg : Message) (m : Machine) :
  wf m → ∃ r m', send msg m = Ok r m' ∧ sends m msg r m'.
Proof.
  intros [Hconn _].
  destruct (connected (client m)) eqn:Hc.
  - destruct (Hconn eq_refl) as [k Hk].
    destruct (WriteMessage X k
                (with_Game msg (ConfigGame (config (client m)))))
      as [k' werr] eqn:Hw.
    eexists _, _. split.
    + rewrite (send_connected msg m k Hc Hk). simpl. rewrite Hw. reflexivity.
    + by eapply sends_written.
  - eexists _, _. split; [by apply send_not_connected | by constructor].
Qed.

Lemma sends_frame m msg r m' :
  sends m msg r m' →
  config (client m') = config (client m) ∧
  actions (client m') = actions (client m) ∧
  connected (client m') = connected (client m) ∧
  closed (client m') = closed (client m) ∧
  closeChan (client m') = closeChan (client m) ∧
  world m' = world m ∧ spawned m' = spawned m.
Proof. destruct 1; simpl; tauto. Qed.

Lemma sends_wf m msg r m' : wf m → sends m msg r m' → wf m'.
Proof.
  intros [H1 H2]. destruct 1; [done|]. split; simpl; [eauto | done].
Qed.

(** ** The game field of outbound envelopes *)

Ltac close_step Hm :=
  split; [reflexivity|]; split; [exact Hm|]; split; [reflexivity|].

Lemma steps_ok_ret {A} (a : A) : steps_ok (ret a).
Proof.
  intros m Hm. exists a, m. close_step Hm.
  exists []. by rewrite app_nil_r.
Qed.

Lemma steps_ok_bind {A B} (f : M A) (k : A → M B) :
  steps_ok f → (∀ a, steps_ok (k a)) → steps_ok (bind f k).
Proof.
  intros Hf Hk m Hm.
  destruct (Hf m Hm) as (a & m1 & E1 & W1 & C1 & evs1 & T1 & G1).
  destruct (Hk a m1 W1) as (b & m2 & E2 & W2 & C2 & evs2 & T2 & G2).
  exists b, m2. unfold bind. rewrite E1, E2.
  split; [done|]. split; [done|]. split; [congruence|].
  exists (evs1 ++ evs2)%list. split.
  - by rewrite T2, T1, app_assoc.
  - apply Forall_app. split; [done|]. by rewrite <- C1.
Qed.

Lemma steps_ok_getc : steps_ok getc.
Proof.
  intros m Hm. exists (client m), m. close_step Hm.
  exists []. by rewrite app_nil_r.
Qed.

Lemma steps_ok_send (msg : Message) : steps_ok (send msg).
Proof.
  intros m Hm. destruct (send_sends msg m Hm) as (r & m' & E & S).
  exists r, m'. split; [done|]. split; [by eapply sends_wf|].
  split; [by eapply sends_frame|].
  destruct S as [|k k' werr Hc Hk Hw].
  - exists []. by rewrite app_nil_r.
  - eexists. split; [reflexivity|].
    unfold write_events. destruct werr; repeat constructor.
Qed.

Lemma steps_ok_emit (ev : Event) : is_write ev = false → steps_ok (emit ev).
Proof.
  intros Hev m Hm. eexists tt, _. close_step Hm.
  eexists. split; [reflexivity|]. constructor; [|done].
  by destruct ev.
Qed.

Lemma steps_ok_logf (line : string) : steps_ok (logf line).
Proof. by apply steps_ok_emit. Qed.

Lemma steps_ok_go (g : Goroutine) : steps_ok (go g).
Proof.
  intros m Hm. eexists tt, _. close_step Hm.
  exists []. simpl. by rewrite app_nil_r.
Qed.

Lemma steps_ok_set_actions (f : Client → gmap string ActionHandler) :
  steps_ok (modc (λ c, set_actions (f c) c)).
Proof.
  intros m Hm. eexists tt, _. close_step Hm.
  exists []. simpl. by rewrite app_nil_r.
Qed.

Lemma steps_ok_call_Validate h data : steps_ok (call_Validate h data).
Proof.
  intros m Hm. unfold call_Validate.
  destruct (Validate h data (world m)) as [r w].
  eexists r, _. close_step Hm.
  eexists. split; [reflexivity|]. by repeat constructor.
Qed.

Lemma steps_ok_call_Execute h st : steps_ok (call_Execute h st).
Proof.
  intros m Hm. eexists tt, _. close_step Hm.
  eexists. split; [reflexivity|]. by repeat constructor.
Qed.

Create HintDb steps discriminated.
#[local] Hint Resolve steps_ok_ret steps_ok_getc steps_ok_send
  steps_ok_logf steps_ok_go steps_ok_set_actions steps_ok_call_Validate
  steps_ok_call_Execute : steps.

Ltac steps :=
  repeat first
    [ progress cbv zeta
    | solve [eauto with steps]
    | apply steps_ok_bind; [|intros ?]
    | match goal with
      | |- steps_ok (match ?x with _ => _ end) => destruct x
      | |- steps_ok (if ?x then _ else _) => destruct x
      | |- steps_ok (let '(_, _) := ?x in _) => destruct x
      end ].

Lemma steps_ok_SendActionResult id success message :
  steps_ok (SendActionResult id success message).
Proof. unfold SendActionResult. steps. Qed.

Lemma steps_ok_RegisterActions_loop handlers acts :
  steps_ok (RegisterActions_loop handlers acts).
Proof.
  revert acts. induction handlers as [|h rest IH]; intros acts; simpl.
  - steps.
  - destruct (decide (GetName h = "")); steps.
Qed.

Lemma steps_ok_RegisterActions handlers : steps_ok (RegisterActions handlers).
Proof.
  unfold RegisterActions. destruct handlers; [steps|].
  apply steps_ok_bind; [apply steps_ok_RegisterActions_loop|].
  intros [e|acts]; steps.
Qed.

Lemma steps_ok_UnregisterActions names : steps_ok (UnregisterActions names).
Proof. unfold UnregisterActions. destruct names; steps. Qed.

Lemma steps_ok_ForceActions q names opts :
  steps_ok (ForceActions q names opts).
Proof. unfold ForceActions. destruct names; steps. Qed.

Lemma steps_ok_resend : steps_ok resendRegisteredActions.
Proof.
  unfold resendRegisteredActions. apply steps_ok_bind; [steps|].
  intros c. case_bool_decide; [|steps].
  apply steps_ok_bind; [apply steps_ok_RegisterActions|].
  intros [e|]; steps.
Qed.

Lemma steps_ok_handleAction action : steps_ok (handleAction action).
Proof.
  unfold handleAction. apply steps_ok_bind; [steps|]. intros c.
  destruct (actions c !! ActionName action) as [h|].
  - apply steps_ok_bind; [steps|]. intros [st result].
    apply steps_ok_bind; [apply steps_ok_SendActionResult|].
    intros err. apply steps_ok_bind; [destruct err; steps|].
    intros _. destruct (Successful result); steps.
  - apply steps_ok_bind; [apply steps_ok_SendActionResult|]. steps.
Qed.

Lemma steps_ok_handleMessage frame : steps_ok (handleMessage frame).
Proof.
  unfold handleMessage.
  destruct (Unmarshal_Message X frame) as [msg|e]; [|steps].
  apply steps_ok_bind; [steps|]. intros _.
  destruct (decide (Command msg = "action")).
  - destruct (Unmarshal_IncomingAction X (Data msg)); steps.
  - destruct (decide (Command msg = "actions/reregister_all")); steps.
Qed.

Lemma steps_ok_run_goroutine g : steps_ok (run_goroutine g).
Proof.
  destruct g; simpl.
  - apply steps_ok_handleAction.
  - apply steps_ok_resend.
  - apply steps_ok_bind; [apply steps_ok_ForceActions|].
    intros [e|]; steps.
Qed.

Lemma steps_ok_Close : steps_ok Close.
Proof.
  intros m Hm. pose proof Hm as [Hconn Hchan]. unfold Close, bind, getc.
  destruct (closed (client m)) eqn:Hcl.
  - exists None, m. close_step Hm. exists []. by rewrite app_nil_r.
  - simpl. rewrite Hchan. simpl.
    destruct (conn (client m)) as [k|] eqn:Hk.
    + destruct (ConnClose X k) as [k' cerr]. simpl.
      eexists cerr, _. split; [reflexivity|]. simpl.
      split; [split; simpl; eauto|]. split; [done|].
      eexists. split; [reflexivity|]. by repeat constructor.
    + eexists None, _. split; [reflexivity|]. simpl.
      split; [split; simpl; [by rewrite Hk|done]|]. split; [done|].
      exists []. by rewrite app_nil_r.
Qed.

Lemma steps_ok_Register w : steps_ok (Register w).
Proof.
  unfold Register. destruct (registered w); [steps|].
  destruct (w_actions w) as [|h hs] eqn:Hw; [steps|].
  cbv zeta. apply steps_ok_bind; [apply steps_ok_RegisterActions|].
  intros [e|]; steps.
Qed.

Lemma steps_ok_End w : steps_ok (End_ w).
Proof.
  unfold End_. destruct (negb (registered w)); [steps|].
  apply steps_ok_UnregisterActions.
Qed.

Lemma steps_ok_run_call call : steps_ok (run_call call).
Proof.
  destruct call; simpl;
    try (apply steps_ok_bind; [|intros ?; apply steps_ok_ret]).
  - apply steps_ok_send.
  - apply steps_ok_send.
  - apply steps_ok_send.
  - apply steps_ok_send.
  - apply steps_ok_SendActionResult.
  - apply steps_ok_RegisterActions.
  - apply steps_ok_UnregisterActions.
  - apply steps_ok_ForceActions.
  - apply steps_ok_handleMessage.
  - apply steps_ok_run_goroutine.
  - apply steps_ok_Close.
  - apply steps_ok_Register.
  - apply steps_ok_End.
Qed.

Lemma steps_ok_run_calls calls : steps_ok (run_calls calls).
Proof.
  induction calls as [|call rest IH]; simpl.
  - apply steps_ok_ret.
  - apply steps_ok_bind; [apply steps_ok_run_call | by intros _].
Qed.

Lemma NewClient_wf cfg c w : NewClient cfg = inl c → wf (start c w).
Proof.
  unfold NewClient. repeat case_decide; intros [= <-]. by split.
Qed.

(** C7. Every frame handed to the transport carries the configured game
    name.  (1) [send] overwrites the game field of the envelope it is
    given, whatever it held, with [config.Game] before the write, and
    writes that envelope once; command and payload are untouched.
    (2) Over any sequence of operations of the package started from a
    well-formed machine, the run returns and every [WriteMessage] it
    performed was given an envelope whose game field is the configured
    game name. *)
Theorem outbound_game_is_configured :
  (∀ (msg : Message) (m : Machine) (k : Conn X),
     connected (client m) = true →
     conn (client m) = Some k →
     ∃ r m' wire werr,
       send msg m = Ok r m' ∧
       trace m' = (trace m ++ write_events wire werr)%list ∧
       Game wire = ConfigGame (config (client m)) ∧
       Command wire = Command msg ∧ Data wire = Data msg) ∧
  (∀ (calls : list Call) (m : Machine),
     wf m →
     ∃ m', run_calls calls m = Ok tt m' ∧
       config (client m') = config (client m) ∧
       ∃ evs : list Event,
         trace m' = (trace m ++ evs)%list ∧
         ∀ msg werr, EvWrite msg werr ∈ evs →
                     Game msg = ConfigGame (config (client m))).
Proof.
  split.
  - intros msg m k Hc Hk.
    eexists _, _, _, _. split; [by apply send_connected|].
    simpl. auto.
  - intros calls m Hm.
    destruct (steps_ok_run_calls calls m Hm)
      as ([] & m' & E & _ & C & evs & T & G).
    exists m'. split; [done|]. split; [done|].
    exists evs. split; [done|].
    intros msg werr Hin.
    rewrite Forall_forall in G. exact (G _ Hin).
Qed.

(** ** The invocation pipeline *)

(** The events of one [SendActionResult] on a well-formed machine: when
    connected, the write of the envelope and then at most the "Sent" log
    line; when not connected, nothing. *)
Lemma SendActionResult_events id success message (m : Machine) :
  wf m →
  ∃ r m' (sent : list Event),
    SendActionResult id success message m = Ok r m' ∧
    trace m' = (trace m ++ sent)%list ∧
    world m' = world m ∧ wf m' ∧
    actions (client m') = actions (client m) ∧
    connected (client m') = connected (client m) ∧
    config (client m') = config (client m) ∧
    if connected (client m) then
      ∃ werr,
        sent = write_events
                 (action_result_envelope (ConfigGame (config (client m)))
                    id success message) werr ∧
        r = write_result werr
    else sent = [] ∧ r = Some (errors_New "not connected").
Proof.
  intros Hm. unfold SendActionResult. cbv zeta.
  match goal with |- context [send ?e] => set (env := e) end.
  destruct (send_sends env m Hm) as (r & m' & E & S).
  pose proof (sends_wf _ _ _ _ Hm S) as Hwf.
  pose proof (sends_frame _ _ _ _ S) as (F1 & F2 & F3 & F4 & F5 & F6 & F7).
  destruct S as [Hc|k k' werr Hc Hk Hw].
  - exists (Some (errors_New "not connected")), m, [].
    rewrite Hc, app_nil_r. done.
  - eexists _, _, _. split; [exact E|]. split; [reflexivity|].
    rewrite Hc. do 5 (split; [done|]). by exists werr.
Qed.

(** ** Registration *)

Lemma with_actions_id (m : Machine) : with_actions m (actions (client m)) = m.
Proof. by destruct m as [[] ? ? ?]. Qed.

Lemma insert_all_lookup name handlers reg :
  insert_all handlers reg !! name
  = match last_named name handlers with
    | Some h => Some h
    | None => reg !! name
    end.
Proof.
  revert reg. induction handlers as [|h rest IH]; intros reg; [done|].
  change (insert_all (h :: rest) reg)
    with (insert_all rest (<[GetName h := h]> reg)).
  rewrite IH. unfold last_named. rewrite filter_cons.
  destruct (decide (GetName h = name)) as [<-|Hne].
  - destruct (filter _ rest) as [|h' l] eqn:Hf; simpl.
    + by rewrite lookup_insert_eq.
    + destruct (last (h' :: l)) eqn:Hl; [done|].
      by apply last_None in Hl.
  - destruct (last (filter _ rest)); [done|]. by rewrite lookup_insert_ne.
Qed.

Lemma last_named_name name handlers h :
  last_named name handlers = Some h → GetName h = name ∧ h ∈ handlers.
Proof.
  unfold last_named. intros Hl. apply last_Some_elem_of in Hl.
  apply list_elem_of_filter in Hl. tauto.
Qed.

Lemma last_named_is_Some handlers h :
  h ∈ handlers → is_Some (last_named (GetName h) handlers).
Proof.
  intros Hin. unfold last_named.
  assert (Hf : h ∈ filter (λ h', GetName h' = GetName h) handlers)
    by (by apply list_elem_of_filter).
  destruct (filter _ handlers) as [|x l] using rev_ind.
  - by apply not_elem_of_nil in Hf.
  - rewrite last_snoc. eauto.
Qed.

(** A handler that no later handler of the list shadows is the last one
    bearing its name. *)
Lemma last_named_unshadowed handlers i h :
  handlers !! i = Some h →
  (∀ j h', i < j → handlers !! j = Some h' → GetName h' ≠ GetName h) →
  last_named (GetName h) handlers = Some h.
Proof.
  revert i. induction handlers as [|x rest IH]; intros i Hi Hlater; [done|].
  unfold last_named. rewrite filter_cons. destruct i as [|i]; simpl in Hi.
  - injection Hi as ->. rewrite decide_True by done.
    assert (Hnone : filter (λ h', GetName h' = GetName h) rest = []).
    { destruct (filter _ rest) as [|h' l] eqn:Hf; [done|]. exfalso.
      assert (Hin : h' ∈ filter (λ h', GetName h' = GetName h) rest)
        by (rewrite Hf; left).
      apply list_elem_of_filter in Hin as [Hname Hin].
      apply list_elem_of_lookup in Hin as [j Hj].
      apply (Hlater (S j) h'); [lia | done | done]. }
    by rewrite Hnone.
  - assert (IH' : last_named (GetName h) rest = Some h).
    { apply (IH i Hi). intros j h' Hlt Hj.
      apply (Hlater (S j)); [lia | done]. }
    unfold last_named in IH'.
    destruct (decide (GetName x = GetName h)); [|done].
    destruct (filter _ rest) as [|y l]; [done|]. exact IH'.
Qed.

Lemma RegisterActions_loop_named handlers acts (m : Machine) :
  Forall named handlers →
  RegisterActions_loop handlers acts m
  = Ok (inr (acts ++ (definition_of <$> handlers))%list)
       (with_actions m (insert_all handlers (actions (client m)))).
Proof.
  intros Hall. revert acts m.
  induction Hall as [|h rest Hh _ IH]; intros acts m; simpl.
  - unfold ret. by rewrite app_nil_r, with_actions_id.
  - rewrite decide_False by exact Hh. unfold bind, modc, modify.
    rewrite IH. simpl. by rewrite <- app_assoc.
Qed.

Lemma RegisterActions_loop_unnamed pre h post acts (m : Machine) :
  Forall named pre →
  GetName h = "" →
  RegisterActions_loop (pre ++ h :: post) acts m
  = Ok (inl (errors_New "action name cannot be empty"))
       (with_actions m (insert_all pre (actions (client m)))).
Proof.
  intros Hall Hh. revert acts m.
  induction Hall as [|x rest Hx _ IH]; intros acts m; simpl.
  - rewrite decide_True by exact Hh. unfold ret. by rewrite with_actions_id.
  - rewrite decide_False by exact Hx. unfold bind, modc, modify.
    by rewrite IH.
Qed.

Lemma RegisterActions_named handlers (m : Machine) :
  wf m →
  Forall named handlers →
  ∃ r m', RegisterActions handlers m = Ok r m' ∧
    actions (client m') = insert_all handlers (actions (client m)).
Proof.
  intros Hm Hall. unfold RegisterActions.
  destruct handlers as [|h rest]; [by exists None, m|].
  unfold bind. rewrite (RegisterActions_loop_named _ _ _ Hall).
  match goal with |- context [send ?e ?m1] =>
    destruct (send_sends e m1) as (r & m' & E & S); [exact Hm|]
  end.
  exists r, m'. split; [exact E|].
  by destruct (sends_frame _ _ _ _ S) as (_ & -> & _).
Qed.

(** C6 (as amended). For every handler list whose handlers all have a
    non-empty name, [RegisterActions] returns (with the result of the
    send, whatever it is) and afterwards the registry is the previous one
    with the handlers inserted in list order: a lookup of the name of any
    handler of the list returns the last handler of the list bearing that
    name, which is that same handler whenever no later handler of the
    list has the same name. *)
Theorem RegisterActions_lookup (handlers : list ActionHandler)
    (m : Machine) :
  wf m →
  Forall named handlers →
  ∃ r m',
    RegisterActions handlers m = Ok r m' ∧
    (∀ h, h ∈ handlers →
       ∃ h', last_named (GetName h) handlers = Some h' ∧
             actions (client m') !! GetName h = Some h') ∧
    (∀ i h, handlers !! i = Some h →
       (∀ j h', i < j → handlers !! j = Some h' → GetName h' ≠ GetName h) →
       actions (client m') !! GetName h = Some h).
Proof.
  intros Hm Hall.
  destruct (RegisterActions_named handlers m Hm Hall) as (r & m' & E & A).
  exists r, m'. split; [exact E|]. rewrite A. split.
  - intros h Hin. destruct (last_named_is_Some handlers h Hin) as [h' Hl].
    exists h'. split; [done|]. by rewrite insert_all_lookup, Hl.
  - intros i h Hi Hlater.
    by rewrite insert_all_lookup, (last_named_unshadowed _ i h Hi Hlater).
Qed.

Lemma RegisterActions_unnamed pre h post (m : Machine) :
  Forall named pre →
  GetName h = "" →
  RegisterActions (pre ++ h :: post)%list m
  = Ok (Some (errors_New "action name cannot be empty"))
       (with_actions m (insert_all pre (actions (client m)))).
Proof.
  intros Hall Hh. unfold RegisterActions.
  destruct (pre ++ h :: post)%list as [|x l] eqn:Hl; [by destruct pre|].
  rewrite <- Hl. unfold bind.
  by rewrite (RegisterActions_loop_unnamed _ _ _ _ _ Hall Hh).
Qed.


(** ** Re-advertisement *)

Lemma range_empty : range ∅ = [].
Proof.
  apply Permutation_nil_r. rewrite (map_range_perm range ∅).
  by rewrite map_to_list_empty.
Qed.

(** C10. A frame that decodes to the command [actions/reregister_all]
    makes [handleMessage] log the reception and start exactly one
    goroutine, [resendRegisteredActions], without writing anything; and
    when that goroutine runs on a machine whose registry is empty it
    returns leaving the machine exactly as it found it: no
    [actions/register] envelope (nor any other) is written, not even an
    empty batch. *)
Theorem reregister_all_empty_registry (frame : string) (msg : Message)
    (m : Machine) :
  Unmarshal_Message X frame = inl msg →
  Command msg = "actions/reregister_all" →
  (∃ m1, handleMessage frame m = Ok None m1 ∧
     client m1 = client m ∧
     trace m1 = (trace m ++ [EvLog "Received: actions/reregister_all"])%list ∧
     spawned m1 = (spawned m ++ [GoResendRegisteredActions])%list) ∧
  (∀ m2, actions (client m2) = ∅ →
     run_goroutine GoResendRegisteredActions m2 = Ok tt m2).
Proof.
  intros Hmsg Hcmd. split.
  - unfold handleMessage. rewrite Hmsg, Hcmd. simpl.
    eexists. split; [reflexivity|]. by simpl.
  - intros m2 Hreg. simpl. unfold resendRegisteredActions, bind, getc.
    by rewrite Hreg, range_empty.
Qed.

(** ** Forcing *)

Lemma apply_opts_fields (specs : list OptionSpec) :
  state (apply_opts (option_of <$> specs)) = last_set sets_state "" specs ∧
  ephemeralContext (apply_opts (option_of <$> specs))
    = last_set sets_ephemeral false specs ∧
  priority (apply_opts (option_of <$> specs))
    = last_set sets_priority PriorityLow specs.
Proof.
  unfold apply_opts, last_set.
  induction specs as [|o specs IH] using rev_ind; [done|].
  rewrite fmap_app, foldl_app, !omap_app. simpl.
  destruct IH as (IH1 & IH2 & IH3).
  destruct o; simpl; rewrite ?app_nil_r, ?last_snoc; simpl; done.
Qed.

Lemma force_payload_lookup q names (cfg : forceConfig) :
  let p := force_payload q names cfg in
  p !! "query" = Some (JString q) ∧
  p !! "action_names" = Some (json_strings names) ∧
  p !! "ephemeral_context" = Some (JBool (ephemeralContext cfg)) ∧
  p !! "priority" = Some (JString (priority cfg)) ∧
  p !! "state" = (if decide (state cfg = "") then None
                  else Some (JString (state cfg))).
Proof.
  unfold force_payload. destruct (decide (state cfg = "")); simpl;
    repeat split; by simplify_map_eq.
Qed.

(** ** Action window *)

Lemma named_split (handlers : list ActionHandler) :
  Forall named handlers ∨
  ∃ pre h post, handlers = (pre ++ h :: post)%list ∧
                Forall named pre ∧ GetName h = "".
Proof.
  induction handlers as [|x rest [IH|(pre & h & post & -> & Hpre & Hh)]].
  - by left.
  - destruct (decide (GetName x = "")) as [Hx|Hx].
    + right. by exists [], x, rest.
    + left. by constructor.
  - destruct (decide (GetName x = "")) as [Hx|Hx].
    + right. by exists [], x, (pre ++ h :: post)%list.
    + right. exists (x :: pre), h, post. repeat split; [|done].
      by constructor.
Qed.

Lemma RegisterActions_returns handlers (m : Machine) :
  wf m →
  ∃ r m1, RegisterActions handlers m = Ok r m1 ∧
          spawned m1 = spawned m ∧
          connected (client m1) = connected (client m).
Proof.
  intros Hm.
  destruct (named_split handlers) as [Hall|(pre & h & post & -> & Hpre & Hh)].
  - destruct handlers as [|x rest]; [by exists None, m|].
    unfold RegisterActions, bind.
    rewrite (RegisterActions_loop_named _ _ _ Hall).
    match goal with |- context [send ?e ?m1] =>
      destruct (send_sends e m1) as (r & m' & E & S); [exact Hm|]
    end.
    exists r, m'. split; [exact E|].
    by destruct (sends_frame _ _ _ _ S) as (_ & _ & -> & _ & _ & _ & ->).
  - rewrite (RegisterActions_unnamed _ _ _ _ Hpre Hh). by eexists _, _.
Qed.


(** ** Sends on a closed engine *)

Lemma refused_when_not_connected (op : SendOp) (m : Machine) :
  connected (client m) = false →
  (reaches_send op →
     ∃ e m2, run_send_op op m = Ok (Some e) m2 ∧
             error_kind e = StateError ∧ trace m2 = trace m) ∧
  (fails_validation op →
     ∃ e m2, run_send_op op m = Ok (Some e) m2 ∧
             error_kind e = ValidationError ∧ trace m2 = trace m).
Proof.
  intros Hc.
  destruct op as [message silent|handlers|q names opts|id success message| |];
    simpl; (split; [intros Hop | intros Hop; try done]);
    try (eexists _, _; split; [by apply send_not_connected | done]).
  - destruct Hop as [Hne Hall]. destruct handlers as [|h rest]; [done|].
    unfold RegisterActions, bind.
    rewrite (RegisterActions_loop_named _ _ _ Hall).
    eexists _, _. split; [by apply send_not_connected | done].
  - destruct (named_split handlers)
      as [Hall|(pre & h & post & -> & Hpre & Hh)]; [done|].
    rewrite (RegisterActions_unnamed _ _ _ _ Hpre Hh). by eexists _, _.
  - destruct names as [|n names]; [done|]. unfold ForceActions.
    eexists _, _. split; [by apply send_not_connected | done].
  - subst names. by eexists _, _.
Qed.

Lemma Close_result (m : Machine) :
  wf m →
  ∃ r m1, Close m = Ok r m1 ∧ wf m1 ∧
    closed (client m1) = true ∧
    connected (client m1) = connected (client m) ∧
    r = (if closed (client m) then None
         else match conn (client m) with
              | Some k => (ConnClose X k).2
              | None => None
              end) ∧
    trace m1 = (trace m ++
                match conn (client m) with
                | Some k => if closed (client m) then []
                            else [EvConnClose (ConnClose X k).2]
                | None => []
                end)%list.
Proof.
  intros Hm. pose proof Hm as [Hconn Hchan]. unfold Close, bind, getc.
  destruct (closed (client m)) eqn:Hcl.
  - exists None, m. repeat (split; [done|]).
    destruct (conn (client m)); by rewrite app_nil_r.
  - simpl. rewrite Hchan. simpl.
    destruct (conn (client m)) as [k|] eqn:Hk.
    + destruct (ConnClose X k) as [k' cerr]. simpl.
      eexists cerr, _. split; [reflexivity|]. simpl.
      split; [split; simpl; eauto|]. done.
    + eexists None, _. split; [reflexivity|]. simpl.
      split; [split; simpl; [by rewrite Hk|done]|].
      by rewrite app_nil_r.
Qed.

(** On an engine closed after a connection was stored, [send] is not
    refused: [Close] leaves [connected] set, so the envelope is handed to
    [WriteMessage] on the connection that [Close] closed, and [send]
    returns what that write returns. *)
Lemma send_after_Close_connected (msg : Message) (m : Machine) (k : Conn X) :
  wf m →
  connected (client m) = true →
  closed (client m) = false →
  conn (client m) = Some k →
  ∃ r0 m1 r m2 werr,
    Close m = Ok r0 m1 ∧
    closed (client m1) = true ∧
    conn (client m1) = Some (ConnClose X k).1 ∧
    send msg m1 = Ok r m2 ∧
    r = write_result werr ∧
    trace m2
      = (trace m1 ++
         write_events (with_Game msg (ConfigGame (config (client m))))
           werr)%list.
Proof.
  intros [_ Hchan] Hc Hcl Hk.
  assert (E : ∃ m1, Close m = Ok (ConnClose X k).2 m1 ∧
            closed (client m1) = true ∧
            connected (client m1) = true ∧
            config (client m1) = config (client m) ∧
            conn (client m1) = Some (ConnClose X k).1).
  { unfold Close, bind, getc. rewrite Hcl. simpl. rewrite Hchan, Hcl, Hk.
    simpl. destruct (ConnClose X k) as [k' cerr]. simpl.
    eexists. split; [reflexivity|]. simpl. by rewrite Hc. }
  destruct E as (m1 & E & Hcl1 & Hc1 & Hcfg & Hk1).
  eexists _, m1, _, _, _. split; [exact E|]. split; [exact Hcl1|].
  split; [exact Hk1|].
  split; [exact (send_connected msg m1 _ Hc1 Hk1)|].
  split; [reflexivity|]. simpl. by rewrite Hcfg.
Qed.

(** C3 (as amended). On an engine that never established a connection,
    after [Close] has returned, every send-style operation whose
    arguments pass its own checks ([SendContext], [RegisterActions] with
    a non-empty list of handlers that all have names, [ForceActions] with
    a non-empty name list, [SendActionResult], [SendShutdownReady],
    [Startup]) returns the state error "not connected" and makes no call
    to the transport; [ForceActions] with an empty name list and
    [RegisterActions] with an unnamed handler return their validation
    error instead, also without any call to the transport. *)
Theorem sends_after_Close (m : Machine) :
  wf m →
  connected (client m) = false →
  ∃ r0 m1,
    Close m = Ok r0 m1 ∧
    closed (client m1) = true ∧
    ∀ op : SendOp,
      (reaches_send op →
         ∃ e m2, run_send_op op m1 = Ok (Some e) m2 ∧
                 error_kind e = StateError ∧ trace m2 = trace m1) ∧
      (fails_validation op →
         ∃ e m2, run_send_op op m1 = Ok (Some e) m2 ∧
                 error_kind e = ValidationError ∧ trace m2 = trace m1).
Proof.
  intros Hm Hc.
  destruct (Close_result m Hm) as (r0 & m1 & E & _ & Hcl & Hc1 & _).
  exists r0, m1. split; [exact E|]. split; [exact Hcl|].
  intros op. apply refused_when_not_connected. by rewrite Hc1.
Qed.

(** ** Unregistration and the registry invariant *)

Lemma delete_all_lookup names (reg : gmap string ActionHandler) name :
  delete_all names reg !! name
  = if decide (name ∈ names) then None else reg !! name.
Proof.
  revert reg. induction names as [|n names IH]; intros reg.
  - destruct (decide (name ∈ [])) as [Hin|_]; [|done].
    by apply not_elem_of_nil in Hin.
  - change (delete_all (n :: names) reg)
      with (delete_all names (delete n reg)).
    rewrite IH. destruct (decide (name ∈ names)) as [Hin|Hnin].
    + by rewrite decide_True by (by right).
    + destruct (decide (name = n)) as [->|Hne].
      * rewrite decide_True by left. apply lookup_delete_eq.
      * rewrite decide_False.
        -- by apply lookup_delete_ne.
        -- intros Hin. apply elem_of_cons in Hin as [?|?]; done.
Qed.

(** [UnregisterActions] on a non-empty list is the deletion of the names
    followed by one [send] of the unregister envelope. *)
Lemma UnregisterActions_sends names (m : Machine) :
  wf m →
  names ≠ [] →
  ∃ r m',
    UnregisterActions names m = Ok r m' ∧
    sends (with_actions m (delete_all names (actions (client m))))
      (unregister_envelope "" names) r m'.
Proof.
  intros Hm Hne. destruct names as [|n names]; [done|].
  unfold UnregisterActions, bind, modc, modify. cbv zeta.
  match goal with |- context [send ?e ?m1] =>
    destruct (send_sends e m1) as (r & m' & E & S); [exact Hm|]
  end.
  exists r, m'. split; [exact E | exact S].
Qed.

Lemma last_named_None name handlers :
  name ∉ GetName <$> handlers → last_named name handlers = None.
Proof.
  intros Hnot. destruct (last_named name handlers) as [h|] eqn:Hl; [|done].
  exfalso. apply Hnot. apply last_named_name in Hl as [<- Hin].
  by apply list_elem_of_fmap_2.
Qed.


(** ** What registration sends and keeps *)

(** X4. Registering on an engine that is not connected fails with the
    state error "not connected" and writes nothing, yet the handlers are
    in the registry afterwards: every name of the list is bound, to that
    handler itself when no later handler of the list has the same
    name. *)
Theorem RegisterActions_not_connected (handlers : list ActionHandler)
    (m : Machine) :
  connected (client m) = false →
  handlers ≠ [] →
  Forall named handlers →
  ∃ e m',
    RegisterActions handlers m = Ok (Some e) m' ∧
    error_kind e = StateError ∧
    trace m' = trace m ∧
    (∀ h, h ∈ handlers → is_Some (actions (client m') !! GetName h)) ∧
    (∀ i h, handlers !! i = Some h →
       (∀ j h', i < j → handlers !! j = Some h' → GetName h' ≠ GetName h) →
       actions (client m') !! GetName h = Some h).
Proof.
  intros Hc Hne Hall. destruct handlers as [|h0 rest]; [done|].
  unfold RegisterActions, bind.
  rewrite (RegisterActions_loop_named _ _ _ Hall).
  eexists _, _. split; [by apply send_not_connected|].
  split; [reflexivity|]. split; [reflexivity|].
  change (actions (client (with_actions m ?R))) with R.
  split.
  - intros h Hin. rewrite insert_all_lookup.
    destruct (last_named_is_Some _ h Hin) as [h' ->]. by eexists.
  - intros i h Hi Hlater.
    by rewrite insert_all_lookup, (last_named_unshadowed _ i h Hi Hlater).
Qed.

(** ** The registry invariant *)

Lemma registry_ok_insert (reg : gmap string ActionHandler) h :
  named h → registry_ok reg → registry_ok (<[GetName h := h]> reg).
Proof.
  intros Hh Hreg k h' Hk. destruct (decide (GetName h = k)) as [<-|Hne].
  - rewrite lookup_insert_eq in Hk. by injection Hk as <-.
  - rewrite lookup_insert_ne in Hk by done. by apply Hreg.
Qed.

Lemma registry_ok_delete (reg : gmap string ActionHandler) name :
  registry_ok reg → registry_ok (delete name reg).
Proof.
  intros Hreg k h Hk. destruct (decide (name = k)) as [<-|Hne].
  - by rewrite lookup_delete_eq in Hk.
  - rewrite lookup_delete_ne in Hk by done. by apply Hreg.
Qed.

Lemma registry_ok_delete_all names (reg : gmap string ActionHandler) :
  registry_ok reg → registry_ok (delete_all names reg).
Proof.
  revert reg. induction names as [|n names IH]; intros reg Hreg; [done|].
  apply IH. by apply registry_ok_delete.
Qed.

Lemma registry_ok_empty : registry_ok ∅.
Proof. intros k h Hk. by rewrite lookup_empty in Hk. Qed.

Ltac close_keep Hm Hreg :=
  split; [reflexivity|]; split; [exact Hm | exact Hreg].

Lemma keeps_ret {A} (a : A) : keeps_registry (ret a).
Proof. intros m Hm Hreg. exists a, m. close_keep Hm Hreg. Qed.

Lemma keeps_bind {A B} (f : M A) (k : A → M B) :
  keeps_registry f → (∀ a, keeps_registry (k a)) → keeps_registry (bind f k).
Proof.
  intros Hf Hk m Hm Hreg.
  destruct (Hf m Hm Hreg) as (a & m1 & E1 & W1 & R1).
  destruct (Hk a m1 W1 R1) as (b & m2 & E2 & W2 & R2).
  exists b, m2. unfold bind. by rewrite E1, E2.
Qed.

Lemma keeps_getc : keeps_registry getc.
Proof. intros m Hm Hreg. exists (client m), m. close_keep Hm Hreg. Qed.

Lemma keeps_send (msg : Message) : keeps_registry (send msg).
Proof.
  intros m Hm Hreg. destruct (send_sends msg m Hm) as (r & m' & E & S).
  exists r, m'. split; [exact E|]. split; [by eapply sends_wf|].
  by destruct (sends_frame _ _ _ _ S) as (_ & -> & _).
Qed.

Lemma keeps_emit (ev : Event) : keeps_registry (emit ev).
Proof. intros m Hm Hreg. eexists tt, _. close_keep Hm Hreg. Qed.

Lemma keeps_logf (line : string) : keeps_registry (logf line).
Proof. apply keeps_emit. Qed.

Lemma keeps_go (g : Goroutine) : keeps_registry (go g).
Proof. intros m Hm Hreg. eexists tt, _. close_keep Hm Hreg. Qed.

Lemma keeps_call_Validate h data : keeps_registry (call_Validate h data).
Proof.
  intros m Hm Hreg. unfold call_Validate.
  destruct (Validate h data (world m)) as [r w].
  eexists r, _. close_keep Hm Hreg.
Qed.

Lemma keeps_call_Execute h st : keeps_registry (call_Execute h st).
Proof. intros m Hm Hreg. eexists tt, _. close_keep Hm Hreg. Qed.

Lemma keeps_delete_all names :
  keeps_registry
    (modc (λ c, set_actions
                  (foldl (λ reg name, delete name reg) (actions c) names) c)).
Proof.
  intros m Hm Hreg. eexists tt, _. split; [reflexivity|].
  split; [exact Hm|]. simpl. by apply (registry_ok_delete_all names).
Qed.

Create HintDb keeps discriminated.
#[local] Hint Resolve keeps_ret keeps_getc keeps_send keeps_logf keeps_go
  keeps_call_Validate keeps_call_Execute keeps_delete_all : keeps.

Ltac keeps :=
  repeat first
    [ progress cbv zeta
    | solve [eauto with keeps]
    | apply keeps_bind; [|intros ?]
    | match goal with
      | |- keeps_registry (match ?x with _ => _ end) => destruct x
      | |- keeps_registry (if ?x then _ else _) => destruct x
      end ].

Lemma keeps_RegisterActions_loop handlers acts :
  keeps_registry (RegisterActions_loop handlers acts).
Proof.
  revert acts. induction handlers as [|h rest IH]; intros acts; simpl.
  - keeps.
  - destruct (decide (GetName h = "")) as [|Hh]; [keeps|].
    apply keeps_bind; [|by intros _].
    intros m Hm Hreg. eexists tt, _. split; [reflexivity|].
    split; [exact Hm|]. simpl. by apply registry_ok_insert.
Qed.

Lemma keeps_RegisterActions handlers :
  keeps_registry (RegisterActions handlers).
Proof.
  unfold RegisterActions. destruct handlers; [keeps|].
  apply keeps_bind; [apply keeps_RegisterActions_loop|].
  intros [e|acts]; keeps.
Qed.

Lemma keeps_UnregisterActions names :
  keeps_registry (UnregisterActions names).
Proof. unfold UnregisterActions. destruct names; keeps. Qed.

Lemma keeps_SendActionResult id success message :
  keeps_registry (SendActionResult id success message).
Proof. unfold SendActionResult. keeps. Qed.

Lemma keeps_ForceActions q names opts :
  keeps_registry (ForceActions q names opts).
Proof. unfold ForceActions. destruct names; keeps. Qed.

Lemma keeps_resend : keeps_registry resendRegisteredActions.
Proof.
  unfold resendRegisteredActions. apply keeps_bind; [keeps|].
  intros c. case_bool_decide; [|keeps].
  apply keeps_bind; [apply keeps_RegisterActions|].
  intros [e|]; keeps.
Qed.

Lemma keeps_handleAction action : keeps_registry (handleAction action).
Proof.
  unfold handleAction. apply keeps_bind; [keeps|]. intros c.
  destruct (actions c !! ActionName action) as [h|].
  - apply keeps_bind; [keeps|]. intros [st result].
    apply keeps_bind; [apply keeps_SendActionResult|].
    intros err. apply keeps_bind; [destruct err; keeps|].
    intros _. destruct (Successful result); keeps.
  - apply keeps_bind; [apply keeps_SendActionResult|]. keeps.
Qed.

Lemma keeps_handleMessage frame : keeps_registry (handleMessage frame).
Proof.
  unfold handleMessage.
  destruct (Unmarshal_Message X frame) as [msg|e]; [|keeps].
  apply keeps_bind; [keeps|]. intros _.
  destruct (decide (Command msg = "action")).
  - destruct (Unmarshal_IncomingAction X (Data msg)); keeps.
  - destruct (decide (Command msg = "actions/reregister_all")); keeps.
Qed.

Lemma keeps_run_goroutine g : keeps_registry (run_goroutine g).
Proof.
  destruct g; simpl.
  - apply keeps_handleAction.
  - apply keeps_resend.
  - apply keeps_bind; [apply keeps_ForceActions|]. intros [e|]; keeps.
Qed.

Lemma keeps_Close : keeps_registry Close.
Proof.
  intros m Hm Hreg.
  destruct (steps_ok_Close m Hm) as (r & m' & E & Hm' & _).
  exists r, m'. split; [exact E|]. split; [exact Hm'|].
  revert E. unfold Close, bind, getc.
  destruct (closed (client m)); [by intros [= <- <-]|].
  simpl. destruct (closeChan (client m)); [done|]. simpl.
  destruct (conn (client m)) as [k|].
  - destruct (ConnClose X k) as [k' cerr]. simpl. by intros [= <- <-].
  - by intros [= <- <-].
Qed.

Lemma keeps_Register w : keeps_registry (Register w).
Proof.
  unfold Register. destruct (registered w); [keeps|].
  destruct (w_actions w) as [|h hs] eqn:Hw; [keeps|].
  cbv zeta. apply keeps_bind; [apply keeps_RegisterActions|].
  intros [e|]; keeps.
Qed.

Lemma keeps_End w : keeps_registry (End_ w).
Proof.
  unfold End_. destruct (negb (registered w)); [keeps|].
  apply keeps_UnregisterActions.
Qed.

Lemma keeps_run_call call : keeps_registry (run_call call).
Proof.
  destruct call; simpl;
    try (apply keeps_bind; [|intros ?; apply keeps_ret]).
  - apply keeps_send.
  - apply keeps_send.
  - apply keeps_send.
  - apply keeps_send.
  - apply keeps_SendActionResult.
  - apply keeps_RegisterActions.
  - apply keeps_UnregisterActions.
  - apply keeps_ForceActions.
  - apply keeps_handleMessage.
  - apply keeps_run_goroutine.
  - apply keeps_Close.
  - apply keeps_Register.
  - apply keeps_End.
Qed.


(** ** Re-advertisement of a registry that is not empty *)

Lemma insert_all_id handlers (reg : gmap string ActionHandler) :
  (∀ h, h ∈ handlers → reg !! GetName h = Some h) →
  insert_all handlers reg = reg.
Proof.
  induction handlers as [|h rest IH]; intros Hall; [done|].
  change (insert_all (h :: rest) reg)
    with (insert_all rest (<[GetName h := h]> reg)).
  rewrite insert_id by (apply Hall; left).
  apply IH. intros h' Hin. apply Hall. by right.
Qed.

Lemma range_values (reg : gmap string ActionHandler) h :
  h ∈ map_range range reg → ∃ k, reg !! k = Some h.
Proof.
  rewrite (map_range_perm range reg). intros Hin.
  apply list_elem_of_fmap in Hin as ([k h'] & -> & Hin).
  exists k. by apply elem_of_map_to_list.
Qed.

Lemma range_nonempty (reg : gmap string ActionHandler) :
  reg ≠ ∅ → map_range range reg ≠ [].
Proof.
  intros Hne Hnil. apply Hne. apply map_to_list_empty_iff.
  pose proof (map_range_perm range reg) as Hp. rewrite Hnil in Hp.
  symmetry in Hp. apply Permutation_nil_r in Hp.
  by apply fmap_nil_inv in Hp.
Qed.

(** ** The registry decides the dispatch *)

Lemma handleAction_validates (action : IncomingAction) (m : Machine) h :
  wf m →
  actions (client m) !! ActionName action = Some h →
  ∃ m' (rest : list Event),
    handleAction action m = Ok tt m' ∧
    trace m' = (trace m ++ EvValidate h (ActionData action) :: rest)%list.
Proof.
  intros Hm Hh. unfold handleAction, bind at 1, getc. rewrite Hh.
  unfold bind at 1, call_Validate.
  destruct (Validate h (ActionData action) (world m)) as [[st result] w].
  match goal with |- context [bind ?f ?k ?m1] =>
    assert (Hrest : steps_ok (bind f k)); [|destruct (Hrest m1 Hm)
      as ([] & m' & E & _ & _ & evs & T & _)]
  end.
  { apply steps_ok_bind; [apply steps_ok_SendActionResult|].
    intros err. apply steps_ok_bind; [destruct err; steps|].
    intros _. destruct (Successful result); steps. }
  exists m', evs. split; [exact E|]. rewrite T. simpl.
  by rewrite <- app_assoc.
Qed.


(** X8. Once [UnregisterActions] has returned, an incoming action
    bearing one of the unregistered names reaches no handler: the lookup
    of [handleAction] finds nothing, so neither [Validate] nor [Execute]
    is called and the host state is untouched. *)
Theorem unregistered_is_unknown (names : list string) (m : Machine) :
  wf m →
  names ≠ [] →
  ∃ r m1,
    UnregisterActions names m = Ok r m1 ∧
    ∀ action, ActionName action ∈ names →
      actions (client m1) !! ActionName action = None ∧
      ∃ m2 (new : list Event),
        handleAction action m1 = Ok tt m2 ∧
        events_since m1 m2 new ∧
        Forall no_handler_call new ∧
        world m2 = world m1.
Proof.
  intros Hm Hne.
  destruct (UnregisterActions_sends names m Hm Hne) as (r & m1 & E & S).
  assert (Hm1 : wf m1) by (by eapply sends_wf; [|exact S]).
  destruct (sends_frame _ _ _ _ S) as (Hcfg & Ha & Hc & _).
  exists r, m1. split; [exact E|]. intros action Hin.
  assert (Hnone : actions (client m1) !! ActionName action = None).
  { rewrite Ha. simpl. rewrite delete_all_lookup. by rewrite decide_True. }
  split; [exact Hnone|].
  unfold handleAction, bind at 1, getc. rewrite Hnone.
  destruct (SendActionResult_events (ID action) false
              ("Unknown action: " ++ ActionName action) m1 Hm1)
    as (r2 & m2 & sent & E2 & T & W & _ & _ & _ & _ & Hcase).
  exists m2, sent. unfold bind. rewrite E2.
  split; [done|]. split; [exact T|]. split; [|done].
  destruct (connected (client m1)).
  - destruct Hcase as (werr & -> & _). destruct werr; by repeat constructor.
  - destruct Hcase as [-> _]. constructor.
Qed.

(** ** Operations that only send *)

Lemma only_sends_is_send (op : SendOp) :
  only_sends op →
  (∃ msg, run_send_op op = send msg) ∨
  (∃ e, run_send_op op = ret (Some e)).
Proof.
  destruct op as [message silent|handlers|q names opts|id success message| |];
    simpl; intros Hop; try done; try (left; by eexists).
  destruct names; [right | left]; by eexists.
Qed.


(** ** Dispatch of a frame *)

Lemma handleMessage_cases (frame : string) (m : Machine) :
  ∃ r m' (new : list Event) (gs : list Goroutine),
    handleMessage frame m = Ok r m' ∧
    client m' = client m ∧
    world m' = world m ∧
    events_since m m' new ∧ Forall is_log new ∧
    spawned m' = (spawned m ++ gs)%list ∧ (length gs ≤ 1)%nat ∧
    (r ≠ None → gs = []) ∧
    (r ≠ None ↔
       (∃ e, Unmarshal_Message X frame = inr e) ∨
       (∃ msg e, Unmarshal_Message X frame = inl msg ∧
                 Command msg = "action" ∧
                 Unmarshal_IncomingAction X (Data msg) = inr e)) ∧
    (∀ msg, Unmarshal_Message X frame = inl msg →
       Command msg ≠ "action" →
       Command msg ≠ "actions/reregister_all" →
       r = None ∧ gs = []).
Proof.
  unfold handleMessage, events_since.
  destruct (Unmarshal_Message X frame) as [msg|e] eqn:Hmsg.
  - unfold bind at 1, logf, emit, modify.
    destruct (decide (Command msg = "action")) as [Hcmd|Hcmd].
    + destruct (Unmarshal_IncomingAction X (Data msg)) as [a|e] eqn:Ha.
      * eexists None, _, [EvLog _], [GoHandleAction a].
        split; [reflexivity|]. simpl.
        do 3 (split; [done|]). split; [by repeat constructor|].
        split; [done|]. split; [lia|]. split; [done|].
        split; [|by intros ? [= <-]].
        split; [done|].
        intros [[e He]|(msg' & e & [= <-] & _ & He)]; congruence.
      * eexists (Some _), _, [EvLog _], [].
        split; [reflexivity|]. simpl. rewrite app_nil_r.
        do 3 (split; [done|]). split; [by repeat constructor|].
        split; [done|]. split; [lia|]. split; [done|].
        split; [|by intros ? [= <-]].
        split; [|done]. intros _. right. by exists msg, e.
    + destruct (decide (Command msg = "actions/reregister_all"))
        as [Hre|Hre].
      * eexists None, _, [EvLog _], [GoResendRegisteredActions].
        split; [reflexivity|]. simpl.
        do 3 (split; [done|]). split; [by repeat constructor|].
        split; [done|]. split; [lia|]. split; [done|].
        split; [|by intros ? [= <-]].
        split; [done|].
        intros [[e He]|(msg' & e & [= <-] & Hc' & He)]; congruence.
      * eexists None, _, [EvLog _; EvLog _], [].
        split; [reflexivity|]. simpl. rewrite app_nil_r, <- app_assoc.
        do 3 (split; [done|]). split; [by repeat constructor|].
        split; [done|]. split; [lia|]. split; [done|].
        split; [|done].
        split; [done|].
        intros [[e He]|(msg' & e & [= <-] & Hc' & He)]; congruence.
  - eexists (Some _), m, [], []. split; [reflexivity|].
    rewrite !app_nil_r. do 3 (split; [done|]). split; [constructor|].
    split; [done|]. split; [simpl; lia|]. split; [done|].
    split; [|by intros ? [=]].
    split; [|done]. intros _. left. by exists e.
Qed.

(** X11. [handleMessage] only dispatches: it returns, leaves the client
    (registry, connection, flags) and the host state as they were,
    writes no frame and calls no handler (the only outside calls are log
    lines), and starts at most one goroutine.  It returns an error
    exactly when the frame, or the payload of an [action] frame, cannot
    be decoded, and then starts nothing; a command it does not know is
    logged and is not an error. *)
Theorem handleMessage_only_dispatches (frame : string) (m : Machine) :
  ∃ r m' (new : list Event) (gs : list Goroutine),
    handleMessage frame m = Ok r m' ∧
    client m' = client m ∧
    world m' = world m ∧
    events_since m m' new ∧ Forall is_log new ∧
    spawned m' = (spawned m ++ gs)%list ∧ (length gs ≤ 1)%nat ∧
    (r ≠ None → gs = []) ∧
    (r ≠ None ↔
       (∃ e, Unmarshal_Message X frame = inr e) ∨
       (∃ msg e, Unmarshal_Message X frame = inl msg ∧
                 Command msg = "action" ∧
                 Unmarshal_IncomingAction X (Data msg) = inr e)) ∧
    (∀ msg, Unmarshal_Message X frame = inl msg →
       Command msg ≠ "action" →
       Command msg ≠ "actions/reregister_all" →
       r = None ∧ gs = []).
Proof. apply handleMessage_cases. Qed.

(** ** Construction *)

(** X12. [NewClient] fails exactly when the game name or the websocket
    URL is empty, with a configuration error.  Otherwise it returns a
    client that keeps the configuration, holds no connection, has an
    empty registry and is neither connected nor closed; on that client
    every send-style operation that passes its own checks is refused
    with the state error "not connected" and writes nothing. *)
Theorem NewClient_spec (cfg : ClientConfig) :
  ((ConfigGame cfg = "" ∨ WebsocketURL cfg = "") ↔
   ∃ e, NewClient cfg = inr e) ∧
  (∀ e, NewClient cfg = inr e → error_kind e = ConfigError) ∧
  (∀ c, NewClient cfg = inl c →
     config c = cfg ∧ conn c = None ∧ actions c = ∅ ∧
     connected c = false ∧ closed c = false ∧
     ∀ (w : World) (op : SendOp),
       reaches_send op →
       ∃ e m2,
         run_send_op op (start c w) = Ok (Some e) m2 ∧
         error_kind e = StateError ∧ trace m2 = []).
Proof.
  unfold NewClient.
  destruct (decide (ConfigGame cfg = "")) as [Hg|Hg];
    [|destruct (decide (WebsocketURL cfg = "")) as [Hu|Hu]].
  - split; [split; [by eexists | by left]|]. split; [by intros e [= <-]|done].
  - split; [split; [by eexists | by right]|]. split; [by intros e [= <-]|done].
  - split; [split; [by intros [|] | by intros [e He]]|].
    split; [done|]. intros c [= <-]. simpl. do 5 (split; [done|]).
    intros w op Hop.
    destruct (refused_when_not_connected op
                (start {| config := cfg; conn := None; actions := ∅;
                          errChan := []; closeChan := false;
                          connected := false; closed := false |} w)
                eq_refl) as [Hsend _].
    exact (Hsend Hop).
Qed.

(** ** The action window *)



(** ** The read loop *)

Lemma passive_refl (m : Machine) n : passive m m n.
Proof.
  unfold passive, events_since. do 7 (split; [done|]).
  split; [exists []; by rewrite app_nil_r|].
  split; (exists []; rewrite app_nil_r; split; [done | simpl; lia]).
Qed.

Lemma readLoop_body_passive (R : Reader) (m : Machine) :
  closeChan (client m) = true ∨ is_Some (conn (client m)) →
  ∃ r m',
    readLoop_body R m = Ok r m' ∧
    passive m m' 1 ∧
    (r ≠ Some LoopReturned → errChan (client m') = errChan (client m)) ∧
    (r = None → is_Some (conn (client m'))).
Proof.
  intros Hpre. unfold readLoop_body, bind at 1, getc.
  destruct (closeChan (client m)) eqn:Hch.
  { exists (Some LoopReturned), m. split; [done|].
    split; [apply passive_refl|]. by split. }
  destruct Hpre as [|[k Hk]]; [done|]. rewrite Hk.
  destruct (R k) as [k' [frame|e]].
  - unfold bind at 1, modc, modify. unfold bind at 1.
    match goal with |- context [handleMessage frame ?m0] =>
      destruct (handleMessage_cases frame m0)
        as (r & m1 & new & gs & E & Hcl & Hw & T & Hlog & Hsp & Hlen & _)
    end.
    rewrite E. unfold events_since in T. simpl in Hcl, Hw, T, Hsp.
    destruct r as [e|]; unfold bind, logf, emit, modify, ret; simpl.
    + eexists None, _. split; [reflexivity|]. split; [|split; [|rewrite Hcl]];
        simpl; try by eauto.
      * unfold passive, events_since. simpl. rewrite Hcl, Hw, T, Hsp. simpl.
        do 5 (split; [done|]). split; [by eauto|]. split; [done|].
        split; [eexists (new ++ [_])%list; split;
                  [by rewrite app_assoc|]; apply Forall_app; split;
                  [done | by repeat constructor]|].
        split; [by exists gs|].
        exists []. rewrite app_nil_r. split; [done | simpl; lia].
      * by rewrite Hcl.
    + eexists None, m1. split; [by destruct m1|]. split; [|split];
        try by rewrite Hcl; simpl; eauto.
      unfold passive, events_since. rewrite Hcl, Hw, T, Hsp. simpl.
      do 5 (split; [done|]). split; [by eauto|]. split; [done|].
      split; [by exists new|]. split; [by exists gs|].
      exists []. rewrite app_nil_r. split; [done | simpl; lia].
  - unfold bind at 1, modc, modify.
    destruct (closed (client m)) eqn:Hcl.
    + eexists (Some LoopReturned), _. split; [reflexivity|].
      split; [|by split]. unfold passive, events_since. simpl.
      rewrite Hch, Hcl. do 5 (split; [done|]). split; [by eauto|].
      split; [done|]. split; [exists []; by rewrite app_nil_r|].
      split; (exists []; rewrite app_nil_r; split; [done | simpl; lia]).
    + case_bool_decide.
      * eexists (Some LoopReturned), _. split; [reflexivity|].
        split; [|by split]. unfold passive, events_since. simpl.
        rewrite Hch, Hcl. do 5 (split; [done|]). split; [by eauto|].
        split; [done|]. split; [exists []; by rewrite app_nil_r|].
        split; [exists []; rewrite app_nil_r; split; [done | simpl; lia]|].
        eexists [_]. split; [done | simpl; lia].
      * eexists (Some LoopParked), _. split; [reflexivity|].
        split; [|by split]. unfold passive, events_since. simpl.
        rewrite Hch, Hcl. do 5 (split; [done|]). split; [by eauto|].
        split; [done|]. split; [exists []; by rewrite app_nil_r|].
        split; (exists []; rewrite app_nil_r; split; [done | simpl; lia]).
Qed.

Lemma passive_trans (m m1 m2 : Machine) a b :
  passive m m1 a →
  errChan (client m1) = errChan (client m) →
  passive m1 m2 b →
  passive m m2 (a + b).
Proof.
  intros (A1 & A2 & A3 & A4 & A5 & A6 & A7 & (n1 & T1 & L1)
          & (g1 & S1 & G1) & _) Herr
         (B1 & B2 & B3 & B4 & B5 & B6 & B7 & (n2 & T2 & L2)
          & (g2 & S2 & G2) & (e2 & E2 & N2)).
  unfold passive, events_since in *.
  split; [congruence|]. split; [congruence|]. split; [congruence|].
  split; [congruence|]. split; [congruence|]. split; [by auto|].
  split; [congruence|].
  split; [exists (n1 ++ n2)%list; split;
            [by rewrite T2, T1, app_assoc | by apply Forall_app]|].
  split; [exists (g1 ++ g2)%list; split;
            [by rewrite S2, S1, app_assoc | rewrite length_app; lia]|].
  exists e2. split; [by rewrite E2, Herr | done].
Qed.

(** X16. The read loop is passive.  Started on a client that holds a
    connection (or whose close channel is already closed), any number of
    rounds of [readLoop] return without a panic having written no frame
    and called no handler: the registry, the configuration, the flags
    and the host state are as before, the only outside calls are log
    lines, at most one goroutine was started per round, and at most one
    error was put on the error channel, none unless the loop has
    returned.  It never reconnects. *)
Theorem readLoop_is_passive (R : Reader) (rounds : nat) (m : Machine) :
  closeChan (client m) = true ∨ is_Some (conn (client m)) →
  ∃ e m',
    readLoop R rounds m = Ok e m' ∧
    passive m m' rounds ∧
    (e ≠ LoopReturned → errChan (client m') = errChan (client m)).
Proof.
  revert m. induction rounds as [|rounds IH]; intros m Hpre.
  - exists LoopRunning, m. split; [done|]. split; [apply passive_refl|done].
  - destruct (readLoop_body_passive R m Hpre)
      as (r & m1 & E & P & Herr & Hconn).
    simpl. unfold bind at 1. rewrite E. destruct r as [e|].
    + exists e, m1. split; [done|]. split.
      * destruct P as (? & ? & ? & ? & ? & ? & ? & ? & (gs & ? & ?) & ?).
        unfold passive. do 8 (split; [done|]). split; [|done].
        exists gs. split; [done | lia].
      * intros He. apply Herr. congruence.
    + destruct (IH m1) as (e & m2 & E2 & P2 & Herr2).
      { right. by apply Hconn. }
      exists e, m2. split; [exact E2|]. split.
      * apply (passive_trans m m1 m2 1 rounds P); [by apply Herr | exact P2].
      * intros He. rewrite (Herr2 He). by apply Herr.
Qed.

Lemma readLoop_S (R : Reader) (rounds : nat) (m : Machine) :
  readLoop R (S rounds) m
  = match readLoop_body R m with
    | Ok (Some e) m' => Ok e m'
    | Ok None m' => readLoop R rounds m'
    | Panic why => Panic why
    end.
Proof.
  simpl. unfold bind at 1.
  by destruct (readLoop_body R m) as [[e|] m'|].
Qed.

(** X17. How the read loop ends.  If the close channel is closed the
    loop returns at once, having read nothing.  Otherwise, when the read
    fails, the loop ends in that round whatever rounds were left: with
    the engine closed it returns and reports nothing; with the engine
    open and room on the error channel it returns having appended
    exactly one error, the read error wrapped as "read error"; with the
    channel full (8 errors pending) it is parked on the send.  In no case
    is anything logged, written or started, and the registry and the
    [connected] flag are as before. *)
Theorem readLoop_ends (R : Reader) (rounds : nat) (m : Machine) :
  (closeChan (client m) = true →
   readLoop R (S rounds) m = Ok LoopReturned m) ∧
  (∀ k k' e,
     closeChan (client m) = false →
     conn (client m) = Some k →
     R k = (k', inr e) →
     ∃ ending m',
       readLoop R (S rounds) m = Ok ending m' ∧
       ending ≠ LoopRunning ∧
       conn (client m') = Some k' ∧
       trace m' = trace m ∧ spawned m' = spawned m ∧
       actions (client m') = actions (client m) ∧
       connected (client m') = connected (client m) ∧
       (closed (client m) = true →
        ending = LoopReturned ∧ errChan (client m') = errChan (client m)) ∧
       (closed (client m) = false →
        (length (errChan (client m)) < errChan_cap)%nat →
        ending = LoopReturned ∧
        errChan (client m')
          = (errChan (client m) ++ [fmt_Errorf "read error" e])%list ∧
        error_kind (fmt_Errorf "read error" e) = ReadError) ∧
       (closed (client m) = false →
        (errChan_cap ≤ length (errChan (client m)))%nat →
        ending = LoopParked ∧ errChan (client m') = errChan (client m))).
Proof.
  split.
  - intros Hch. rewrite readLoop_S.
    unfold readLoop_body, bind, getc. by rewrite Hch.
  - intros k k' e Hch Hk HR. rewrite readLoop_S.
    unfold readLoop_body, bind at 1, getc. rewrite Hch, Hk, HR.
    unfold bind at 1, modc, modify.
    destruct (closed (client m)) eqn:Hcl.
    + eexists LoopReturned, _. split; [reflexivity|]. simpl.
      do 6 (split; [done|]). split; [done|]. split; [done|]. done.
    + case_bool_decide as Hroom.
      * eexists LoopReturned, _. split; [reflexivity|]. simpl.
        do 6 (split; [done|]). split; [done|]. split; [done|].
        intros _ Hfull. lia.
      * eexists LoopParked, _. split; [reflexivity|]. simpl.
        do 6 (split; [done|]). split; [done|]. split; [|done].
        intros _ Hlt. lia.
Qed.

(** ** Connect and the connection lock *)

Lemma Lock_free (g : Guarded) :
  lock_free g →
  Lock g = Returns tt (set_connMu {| writer := true; readers := 0 |} g).
Proof. intros [Hw Hr]. unfold Lock. by rewrite Hw, Hr. Qed.

(** With no writer on the lock, the guarded [send] is [send]: it returns
    what [send] returns and leaves the lock as it found it. *)
Lemma send_guarded_free (msg : Message) (g : Guarded) r m' :
  writer (connMu g) = false →
  send msg (inner g) = Ok r m' →
  send_guarded msg g
  = Returns r {| inner := m'; connMu := connMu g; actionsMu := actionsMu g;
                 readLoops := readLoops g |}.
Proof.
  intros Hw E. destruct g as [m [w n] amu l]. simpl in Hw, E. subst w.
  unfold send_guarded, bindG, RLock, lift. simpl. by rewrite E.
Qed.

(** X18. [Connect] on an engine whose connection lock is free refuses,
    without dialling and without changing the client, in four cases: a
    closed client ("client is closed", a state error), a connected
    client ("already connected", a state error), a URL that does not
    parse and a dial that fails (both connection errors, wrapping the
    cause).  In each case it returns with the lock released and no read
    loop started. *)
Theorem Connect_refuses (D : Dialer) (g : Guarded) :
  lock_free g →
  let c := client (inner g) in
  let refused (e : error) := Connect D g = Returns (Some e) g in
  (closed c = true → refused (errors_New "client is closed")) ∧
  (closed c = false → connected c = true →
     refused (errors_New "already connected")) ∧
  (∀ e, closed c = false → connected c = false →
     url_Parse D (WebsocketURL (config c)) = inr e →
     refused (fmt_Errorf "invalid websocket URL" e) ∧
     error_kind (fmt_Errorf "invalid websocket URL" e) = ConnectionError) ∧
  (∀ u e, closed c = false → connected c = false →
     url_Parse D (WebsocketURL (config c)) = inl u →
     Dial D u = inr e →
     refused (fmt_Errorf "failed to connect" e) ∧
     error_kind (fmt_Errorf "failed to connect" e) = ConnectionError).
Proof.
  intros Hfree c refused. subst refused c.
  assert (Hret : ∀ e,
            Connect_body D (set_connMu {| writer := true; readers := 0 |} g)
              = Returns (Some e)
                  (set_connMu {| writer := true; readers := 0 |} g) →
            Connect D g = Returns (Some e) g).
  { intros e Hb. unfold Connect, bindG at 1. rewrite (Lock_free g Hfree).
    unfold bindG at 1. rewrite Hb.
    destruct g as [m [w n] amu l]. destruct Hfree as [Hw Hr].
    simpl in Hw, Hr. subst. reflexivity. }
  assert (Hstart : ∀ g0 : Guarded,
            lift getc g0 = Returns (client (inner g0)) g0).
  { intros [m mu amu n]. reflexivity. }
  repeat split.
  - intros Hcl. apply Hret. unfold Connect_body, bindG.
    rewrite Hstart. simpl. by rewrite Hcl.
  - intros Hcl Hc. apply Hret. unfold Connect_body, bindG.
    rewrite Hstart. simpl. by rewrite Hcl, Hc.
  - apply Hret. unfold Connect_body, bindG.
    rewrite Hstart. simpl.
    by repeat match goal with H : _ = _ |- _ => rewrite H end.
  - apply Hret. unfold Connect_body, bindG.
    rewrite Hstart. simpl.
    by repeat match goal with H : _ = _ |- _ => rewrite H end.
Qed.

(** X19. [Connect] does not return once the dial has succeeded.  On an
    open, unconnected engine whose lock is free, with a URL that parses
    and a dial that succeeds, [Connect] stores the connection, sets
    [connected], starts the read loop, and is then parked inside
    [Startup]: [send] asks for the read side of the lock that [Connect]
    itself holds for writing.  No startup frame is written, the lock is
    never released, and from that state every [send] and [Close] is
    parked as well. *)
Theorem Connect_parks_on_its_own_lock (D : Dialer) (g : Guarded)
    (u : string) (k : Conn X) :
  lock_free g →
  closed (client (inner g)) = false →
  connected (client (inner g)) = false →
  url_Parse D (WebsocketURL (config (client (inner g)))) = inl u →
  Dial D u = inl k →
  ∃ g',
    Connect D g = Parks g' ∧
    writer (connMu g') = true ∧
    conn (client (inner g')) = Some k ∧
    connected (client (inner g')) = true ∧
    readLoops g' = S (readLoops g) ∧
    trace (inner g') = trace (inner g) ∧
    (∀ msg, send_guarded msg g' = Parks g') ∧
    Close_guarded g' = Parks g'.
Proof.
  intros Hfree Hcl Hc Hu Hd.
  eexists. split.
  { unfold Connect, bindG at 1. rewrite (Lock_free g Hfree).
    unfold bindG at 1, Connect_body, bindG at 1, lift at 1, getc. simpl.
    rewrite Hcl, Hc, Hu, Hd. reflexivity. }
  simpl. do 5 (split; [done|]). split; [|done]. intros msg. reflexivity.
Qed.

(** ** The methods on a client that has dialled

    [connected] is set in one place, inside [Connect], which holds
    [connMu] for writing and, on that path, never gives it back.  What
    the methods do on a connected client is therefore what they do under
    that lock. *)

Lemma Connect_dials (D : Dialer) (g : Guarded) (k : Conn X) :
  can_dial D g k → Connect D g = Parks (dialled_under_lock k g).
Proof.
  intros (Hfree & Hcl & Hc & u & Hu & Hd).
  unfold Connect, bindG at 1. rewrite (Lock_free g Hfree).
  unfold bindG at 1, Connect_body, bindG at 1, lift at 1, getc. simpl.
  rewrite Hcl, Hc, Hu, Hd. reflexivity.
Qed.

Lemma send_guarded_held (msg : Message) (g : Guarded) :
  writer (connMu g) = true → send_guarded msg g = Parks g.
Proof. intros Hw. unfold send_guarded, bindG, RLock. by rewrite Hw. Qed.

Lemma send_guarded_refused (msg : Message) (g : Guarded) :
  writer (connMu g) = false →
  connected (client (inner g)) = false →
  send_guarded msg g = Returns (Some (errors_New "not connected")) g.
Proof.
  intros Hw Hc.
  rewrite (send_guarded_free msg g _ _ Hw (send_not_connected msg _ Hc)).
  by destruct g.
Qed.

(** The lookup of [handleAction], once the read side of [actionsMu] has
    been taken and released. *)
Lemma handleAction_guarded_lookup (action : IncomingAction) (g : Guarded) :
  writer (actionsMu g) = false →
  handleAction_guarded action g
  = match actions (client (inner g)) !! ActionName action with
    | None =>
        bindG (SendActionResult_guarded (ID action) false
                 ("Unknown action: " ++ ActionName action)) (λ _,
        retG tt) g
    | Some handler =>
        bindG (lift (call_Validate handler (ActionData action))) (λ v,
        let '(st, result) := v in
        bindG (SendActionResult_guarded (ID action) (Successful result)
                 (ResultMessage result)) (λ err,
        bindG (match err with
               | Some e =>
                   lift (logf ("Failed to send action result: "
                               ++ Error e))
               | None => retG tt
               end) (λ _,
        if Successful result then lift (call_Execute handler st)
        else retG tt))) g
    end.
Proof.
  intros Hw. destruct g as [m cmu [aw ar] n]. simpl in Hw. subst aw.
  unfold handleAction_guarded, bindG at 1 2 3, actions_RLock, lift at 1,
    getc, actions_RUnlock.
  simpl. by destruct (actions (client m) !! ActionName action).
Qed.

Lemma handleAction_guarded_locked (action : IncomingAction) (g : Guarded) :
  writer (actionsMu g) = true → handleAction_guarded action g = Parks g.
Proof.
  intros Hw. unfold handleAction_guarded, bindG, actions_RLock.
  by rewrite Hw.
Qed.

Lemma actions_Lock_free (g : Guarded) :
  registry_free g →
  actions_Lock g
  = Returns tt (set_actionsMu {| writer := true; readers := 0 |} g).
Proof. intros [Hw Hr]. unfold actions_Lock. by rewrite Hw, Hr. Qed.

(** [RegisterActions] and [UnregisterActions] up to their [send]: the
    registry is updated under the write side of [actionsMu]. *)
Lemma RegisterActions_guarded_send (handlers : list ActionHandler)
    (g : Guarded) :
  handlers ≠ [] →
  Forall named handlers →
  registry_free g →
  let g1 :=
    {| inner := with_actions (inner g)
                  (insert_all handlers (actions (client (inner g))));
       connMu := connMu g;
       actionsMu := {| writer := true; readers := 0 |};
       readLoops := readLoops g |} in
  RegisterActions_guarded handlers g
  = bindG (send_guarded (register_envelope "" handlers)) (λ res,
    bindG actions_Unlock (λ _, retG res)) g1.
Proof.
  intros Hne Hnamed Hfree g1.
  destruct handlers as [|h0 rest]; [done|].
  unfold RegisterActions_guarded, bindG at 1.
  rewrite (actions_Lock_free g Hfree).
  unfold bindG at 1, lift at 1. simpl inner.
  rewrite (RegisterActions_loop_named (h0 :: rest) [] _ Hnamed).
  reflexivity.
Qed.

Lemma UnregisterActions_guarded_send (names : list string) (g : Guarded) :
  names ≠ [] →
  registry_free g →
  let g1 :=
    {| inner := with_actions (inner g)
                  (delete_all names (actions (client (inner g))));
       connMu := connMu g;
       actionsMu := {| writer := true; readers := 0 |};
       readLoops := readLoops g |} in
  UnregisterActions_guarded names g
  = bindG (send_guarded (unregister_envelope "" names)) (λ res,
    bindG actions_Unlock (λ _, retG res)) g1.
Proof.
  intros Hne Hfree g1. destruct names as [|n0 rest]; [done|].
  unfold UnregisterActions_guarded, bindG at 1.
  rewrite (actions_Lock_free g Hfree). reflexivity.
Qed.

(** C1 (defect).  On a client that has dialled, the pipeline stops
    after [Validate].  Let [Connect] find the lock free and the dial
    succeed: it is parked (in [Startup]) holding [connMu] for writing.
    An incoming action whose name is registered with [h] then has
    [handleAction] call [h.Validate] once on the action's data and park
    in [SendActionResult], at the read side of [connMu]: whatever
    [Validate] returned, success included, no [action/result] frame is
    written and [h.Execute] is not called.  The log of outside calls
    holds the one [Validate] and nothing else. *)
Theorem handleAction_parks_before_result (D : Dialer) (g : Guarded)
    (k : Conn X) (action : IncomingAction) (h : ActionHandler) :
  can_dial D g k →
  writer (actionsMu g) = false →
  actions (client (inner g)) !! ActionName action = Some h →
  let v := Validate h (ActionData action) (world (inner g)) in
  ∃ g1 g2,
    Connect D g = Parks g1 ∧
    handleAction_guarded action g1 = Parks g2 ∧
    trace (inner g2)
      = (trace (inner g) ++ [EvValidate h (ActionData action)])%list ∧
    world (inner g2) = v.2 ∧
    client (inner g2) = client (inner g1) ∧
    writer (connMu g2) = true ∧
    ∀ id success message,
      SendActionResult_guarded id success message g2 = Parks g2.
Proof.
  intros Hdial Hw Hh v. subst v.
  destruct (Validate h (ActionData action) (world (inner g)))
    as [[st result] w'] eqn:Hv.
  exists (dialled_under_lock k g). eexists.
  split; [by apply Connect_dials|].
  rewrite handleAction_guarded_lookup by exact Hw.
  simpl. rewrite Hh. unfold bindG at 1, lift at 1, call_Validate.
  simpl. rewrite Hv.
  split; [reflexivity|]. simpl. do 4 (split; [done|]).
  intros id success message. reflexivity.
Qed.

(** C2 (defect).  On a client that has dialled, an unknown action gets
    no answer.  With [Connect] parked as above, an incoming action whose
    name is not in the registry has [handleAction] park in
    [SendActionResult]: the failure result "Unknown action: ..." is not
    written, nothing is logged, no handler is called, and the machine is
    as [Connect] left it. *)
Theorem handleAction_unknown_parks (D : Dialer) (g : Guarded)
    (k : Conn X) (action : IncomingAction) :
  can_dial D g k →
  writer (actionsMu g) = false →
  actions (client (inner g)) !! ActionName action = None →
  ∃ g1,
    Connect D g = Parks g1 ∧
    handleAction_guarded action g1 = Parks g1 ∧
    trace (inner g1) = trace (inner g) ∧
    world (inner g1) = world (inner g).
Proof.
  intros Hdial Hw Hnone.
  exists (dialled_under_lock k g).
  split; [by apply Connect_dials|].
  rewrite handleAction_guarded_lookup by exact Hw.
  simpl. rewrite Hnone. done.
Qed.

(** C5 (defect).  [ForceActions] with an empty name list returns the
    validation error "must specify at least one action name", for every
    query and every option list, on any machine, and changes nothing.
    With a non-empty list it hands [send] one [actions/force] envelope
    whose payload holds [query], [action_names], [ephemeral_context]
    (the last value set by an option, [false] if none sets it),
    [priority] (the last value set, "low" if none sets it) and [state]
    only when the state left by the options is not empty.  But that
    envelope is never written: on a client that is not connected the
    send is refused with "not connected", and on a client that has
    dialled the call is parked at the read side of [connMu], which
    [Connect] holds. *)
Theorem ForceActions_guarded_spec :
  (∀ q (opts : list ForceOption) (g : Guarded),
     ∃ e, ForceActions_guarded q [] opts g = Returns (Some e) g ∧
          error_kind e = ValidationError) ∧
  (∀ q (names : list string) (specs : list OptionSpec),
     names ≠ [] →
     ∃ payload : gmap string json,
       (∀ g, ForceActions_guarded q names (option_of <$> specs) g
             = send_guarded {| Command := "actions/force"; Game := "";
                               Data := Some (JObject payload) |} g) ∧
       payload !! "query" = Some (JString q) ∧
       payload !! "action_names" = Some (json_strings names) ∧
       payload !! "ephemeral_context"
         = Some (JBool (last_set sets_ephemeral false specs)) ∧
       payload !! "priority"
         = Some (JString (last_set sets_priority "low" specs)) ∧
       payload !! "state"
         = (if decide (last_set sets_state "" specs = "") then None
            else Some (JString (last_set sets_state "" specs)))) ∧
  (∀ q (names : list string) (opts : list ForceOption) (g : Guarded),
     names ≠ [] →
     writer (connMu g) = false →
     connected (client (inner g)) = false →
     ForceActions_guarded q names opts g
       = Returns (Some (errors_New "not connected")) g) ∧
  (∀ (D : Dialer) (g : Guarded) (k : Conn X) q (names : list string)
     (opts : list ForceOption),
     names ≠ [] →
     can_dial D g k →
     ∃ g1,
       Connect D g = Parks g1 ∧
       ForceActions_guarded q names opts g1 = Parks g1 ∧
       trace (inner g1) = trace (inner g)).
Proof.
  split; [|split; [|split]].
  - intros q opts g. by eexists.
  - intros q names specs Hne.
    destruct (apply_opts_fields specs) as (F1 & F2 & F3).
    pose proof (force_payload_lookup q names
                  (apply_opts (option_of <$> specs))) as L.
    cbv zeta in L. rewrite F1, F2, F3 in L.
    eexists. split; [|exact L].
    intros g. by destruct names.
  - intros q names opts g Hne Hw Hc.
    destruct names as [|n names]; [done|].
    by apply send_guarded_refused.
  - intros D g k q names opts Hne Hdial.
    exists (dialled_under_lock k g).
    split; [by apply Connect_dials|].
    destruct names as [|n names]; [done|].
    split; [by apply send_guarded_held|done].
Qed.

(** C8 (defect).  [Close] is idempotent on a client that holds no
    connection: with the lock free it returns [nil], marks the client
    closed, writes nothing and releases the lock, and a second call
    returns [nil] and leaves the machine exactly as it was.  On a client
    that has dialled it does not return at all: it is parked at
    [connMu], which [Connect] holds, before it has marked the client
    closed or touched the connection. *)
Theorem Close_guarded_twice :
  (∀ g : Guarded,
     lock_free g →
     conn (client (inner g)) = None →
     closeChan (client (inner g)) = closed (client (inner g)) →
     ∃ g1,
       Close_guarded g = Returns None g1 ∧
       closed (client (inner g1)) = true ∧
       trace (inner g1) = trace (inner g) ∧
       world (inner g1) = world (inner g) ∧
       lock_free g1 ∧
       Close_guarded g1 = Returns None g1) ∧
  (∀ (D : Dialer) (g : Guarded) (k : Conn X),
     can_dial D g k →
     ∃ g1,
       Connect D g = Parks g1 ∧
       Close_guarded g1 = Parks g1 ∧
       closed (client (inner g1)) = false ∧
       conn (client (inner g1)) = Some k ∧
       trace (inner g1) = trace (inner g)).
Proof.
  split.
  - intros g Hfree Hk Hchan.
    destruct g as [[c w t sp] [cw cr] amu n].
    destruct Hfree as [Hw Hr]. simpl in Hw, Hr, Hk, Hchan. subst cw cr.
    unfold Close_guarded, bindG, Lock, lift, Close, bind, getc. simpl.
    destruct (closed c) eqn:Hcl.
    + eexists. split; [reflexivity|]. simpl. rewrite Hcl.
      by repeat split.
    + simpl. rewrite Hchan, Hk. simpl.
      eexists. split; [reflexivity|]. simpl. by repeat split.
  - intros D g k Hdial. pose proof Hdial as (_ & Hcl & _).
    exists (dialled_under_lock k g).
    split; [by apply Connect_dials|]. by repeat split.
Qed.

(** ** The registry under its lock *)

Lemma resend_guarded_read (g : Guarded) :
  writer (actionsMu g) = false →
  resendRegisteredActions_guarded g
  = (let handlers := map_range range (actions (client (inner g))) in
     if bool_decide (0 < length handlers) then
       bindG (RegisterActions_guarded handlers) (λ err,
       match err with
       | Some e =>
           lift (logf ("Failed to resend registered actions: " ++ Error e))
       | None => retG tt
       end) g
     else Returns tt g).
Proof.
  intros Hw. destruct g as [m cmu [aw ar] n]. simpl in Hw. subst aw.
  unfold resendRegisteredActions_guarded, bindG at 1 2 3, actions_RLock,
    lift at 1, getc, actions_RUnlock.
  simpl. by destruct (bool_decide _).
Qed.

Lemma RegisterActions_guarded_locked (handlers : list ActionHandler)
    (g : Guarded) :
  handlers ≠ [] →
  writer (actionsMu g) = true →
  RegisterActions_guarded handlers g = Parks g.
Proof.
  intros Hne Hw. destruct handlers; [done|].
  unfold RegisterActions_guarded, bindG, actions_Lock. by rewrite Hw.
Qed.

Lemma UnregisterActions_guarded_locked (names : list string) (g : Guarded) :
  names ≠ [] →
  writer (actionsMu g) = true →
  UnregisterActions_guarded names g = Parks g.
Proof.
  intros Hne Hw. destruct names; [done|].
  unfold UnregisterActions_guarded, bindG, actions_Lock. by rewrite Hw.
Qed.

(** X1. [UnregisterActions] with no name returns [nil] and leaves the
    machine as it is.  With names, and [actionsMu] free, the names are
    removed from the registry before anything is sent: afterwards no
    name of the list is in the registry while every other name is bound
    as before, the host state is untouched and nothing was written.  On
    a client that is not connected the call then returns "not connected"
    with both locks as it found them; where [connMu] is held for
    writing, as [Connect] leaves it, the call is parked in [send] and
    keeps [actionsMu] for writing. *)
Theorem UnregisterActions_guarded_removes :
  (∀ g : Guarded, UnregisterActions_guarded [] g = Returns None g) ∧
  (∀ (names : list string) (g : Guarded),
     names ≠ [] →
     registry_free g →
     ∃ g' : Guarded,
       (∀ name,
          actions (client (inner g')) !! name
          = if decide (name ∈ names) then None
            else actions (client (inner g)) !! name) ∧
       world (inner g') = world (inner g) ∧
       trace (inner g') = trace (inner g) ∧
       if writer (connMu g) then
         UnregisterActions_guarded names g = Parks g' ∧
         writer (actionsMu g') = true
       else
         connected (client (inner g)) = false →
         UnregisterActions_guarded names g
           = Returns (Some (errors_New "not connected")) g' ∧
         registry_free g').
Proof.
  split; [done|]. intros names g Hne Hfree.
  pose proof (UnregisterActions_guarded_send names g Hne Hfree) as E.
  cbv zeta in E.
  destruct (writer (connMu g)) eqn:Hw.
  - eexists {| inner := with_actions (inner g)
                          (delete_all names (actions (client (inner g))));
               connMu := connMu g;
               actionsMu := {| writer := true; readers := 0 |};
               readLoops := readLoops g |}.
    split; [intros name; simpl; apply delete_all_lookup|].
    do 2 (split; [done|]). split; [|done].
    rewrite E. unfold bindG at 1.
    rewrite send_guarded_held by exact Hw. reflexivity.
  - exists {| inner := with_actions (inner g)
                         (delete_all names (actions (client (inner g))));
              connMu := connMu g;
              actionsMu := {| writer := false; readers := 0 |};
              readLoops := readLoops g |}.
    split; [intros name; simpl; apply delete_all_lookup|].
    do 2 (split; [done|]).
    intros Hc. rewrite E. unfold bindG at 1.
    rewrite send_guarded_refused by done. by split.
Qed.

(** X3. [RegisterActions] on a client that has dialled locks the
    registry for good.  With [Connect] parked holding [connMu], a call
    with a non-empty list of named handlers takes [actionsMu] for
    writing, puts the handlers in the registry and is parked in [send]:
    no [actions/register] frame is written and [actionsMu] is not given
    back.  From then on every [handleAction] is parked before it has
    looked its handler up, so no [Validate] is called, and so is every
    further [RegisterActions] and [UnregisterActions]. *)
Theorem RegisterActions_parks_holding_registry (D : Dialer) (g : Guarded)
    (k : Conn X) (handlers : list ActionHandler) :
  can_dial D g k →
  registry_free g →
  handlers ≠ [] →
  Forall named handlers →
  ∃ g1 g2,
    Connect D g = Parks g1 ∧
    RegisterActions_guarded handlers g1 = Parks g2 ∧
    actions (client (inner g2))
      = insert_all handlers (actions (client (inner g))) ∧
    trace (inner g2) = trace (inner g) ∧
    world (inner g2) = world (inner g) ∧
    writer (actionsMu g2) = true ∧
    (∀ action, handleAction_guarded action g2 = Parks g2) ∧
    (∀ names, names ≠ [] → UnregisterActions_guarded names g2 = Parks g2) ∧
    (∀ more, more ≠ [] → RegisterActions_guarded more g2 = Parks g2).
Proof.
  intros Hdial Hfree Hne Hnamed.
  exists (dialled_under_lock k g). eexists.
  split; [by apply Connect_dials|]. split.
  { rewrite RegisterActions_guarded_send by done.
    unfold bindG at 1. rewrite send_guarded_held by done. reflexivity. }
  simpl. do 4 (split; [done|]). split; [|split].
  - intros action. by apply handleAction_guarded_locked.
  - intros names Hn. by apply UnregisterActions_guarded_locked.
  - intros more Hm. by apply RegisterActions_guarded_locked.
Qed.

(** X6. A request to re-register locks the registry for good.  On a
    client that has dialled, with [Connect] parked holding [connMu]:
    with an empty registry [resendRegisteredActions] returns and changes
    nothing; with a registry that is not empty (and binds every key to a
    handler of that name) it reads the handlers, calls
    [RegisterActions], and is parked in [send] with [actionsMu] held for
    writing.  Nothing is written, the registry is as before, and from
    then on every [handleAction] is parked before its lookup: no action
    is validated any more. *)
Theorem resend_parks_holding_registry (D : Dialer) (g : Guarded)
    (k : Conn X) :
  can_dial D g k →
  registry_free g →
  registry_ok (actions (client (inner g))) →
  ∃ g1,
    Connect D g = Parks g1 ∧
    (actions (client (inner g)) = ∅ →
     resendRegisteredActions_guarded g1 = Returns tt g1) ∧
    (actions (client (inner g)) ≠ ∅ →
     ∃ g2,
       resendRegisteredActions_guarded g1 = Parks g2 ∧
       actions (client (inner g2)) = actions (client (inner g)) ∧
       trace (inner g2) = trace (inner g) ∧
       world (inner g2) = world (inner g) ∧
       writer (actionsMu g2) = true ∧
       ∀ action, handleAction_guarded action g2 = Parks g2).
Proof.
  intros Hdial Hfree Hreg.
  exists (dialled_under_lock k g).
  split; [by apply Connect_dials|].
  pose proof Hfree as [Hw _].
  split.
  - intros Hempty. rewrite resend_guarded_read by exact Hw.
    simpl. rewrite Hempty, range_empty. reflexivity.
  - intros Hne.
    set (handlers := map_range range (actions (client (inner g)))).
    assert (Hh : handlers ≠ []) by by apply range_nonempty.
    assert (Hnamed : Forall named handlers).
    { apply Forall_forall. intros h Hin.
      destruct (range_values _ _ Hin) as [key Hk].
      destruct (Hreg _ _ Hk) as [Hname Hkey]. unfold named. congruence. }
    assert (Hid : insert_all handlers (actions (client (inner g)))
                  = actions (client (inner g))).
    { apply insert_all_id. intros h Hin.
      destruct (range_values _ _ Hin) as [key Hk].
      destruct (Hreg _ _ Hk) as [Hname _]. by rewrite Hname. }
    eexists. split.
    { rewrite resend_guarded_read by exact Hw.
      cbv zeta. simpl actions. fold handlers.
      rewrite bool_decide_true
        by (destruct handlers; [done|simpl; lia]).
      unfold bindG at 1.
      rewrite RegisterActions_guarded_send by done.
      unfold bindG at 1. rewrite send_guarded_held by done.
      reflexivity. }
    simpl. rewrite Hid. do 4 (split; [done|]).
    intros action. by apply handleAction_guarded_locked.
Qed.


(** ** Nothing reaches the transport *)

Lemma quietly_same (m m' : Machine) : trace m' = trace m → quietly m m'.
Proof. intros T. exists []. by rewrite app_nil_r. Qed.

Lemma quietly_refl (m : Machine) : quietly m m.
Proof. by apply quietly_same. Qed.

Lemma quietly_trans (m1 m2 m3 : Machine) :
  quietly m1 m2 → quietly m2 m3 → quietly m1 m3.
Proof.
  intros (n1 & T1 & F1) (n2 & T2 & F2). exists (n1 ++ n2)%list.
  split; [by rewrite T2, T1, app_assoc|]. by apply Forall_app.
Qed.

Lemma hoare_ret {A} (P : Guarded → Prop) (a : A) :
  hoare P (retG a) (λ _, P).
Proof. intros g Hg. simpl. split; [done|apply quietly_refl]. Qed.

Lemma hoare_bind {A B} (P : Guarded → Prop) (f : G A)
    (Q : A → Guarded → Prop) (k : A → G B) (R : B → Guarded → Prop) :
  hoare P f Q → (∀ a, hoare (Q a) (k a) R) → hoare P (bindG f k) R.
Proof.
  intros Hf Hk g Hg. specialize (Hf g Hg). unfold bindG.
  destruct (f g) as [a g1| |g1]; [|done|done].
  destruct Hf as [Hq Hq1]. specialize (Hk a g1 Hq).
  destruct (k a g1) as [b g2| |g2]; [|done|].
  - destruct Hk as [Hr Hq2]. split; [done|by eapply quietly_trans].
  - destruct Hk as [Hr Hq2]. split; [done|by eapply quietly_trans].
Qed.

Lemma hoare_lift {A} (Φ : RWMutex → Prop) (f : M A) :
  harmless f → hoare (held Φ) (lift f) (λ _, held Φ).
Proof.
  intros Hf g [(Hr & Hch & Hw) HΦ]. unfold lift.
  destruct (Hf (inner g)) as (a & m' & E & Hk & Hc & Hcl & Hcc & Hq).
  rewrite E. split; [|exact Hq]. split; [|exact HΦ].
  split; [exact Hr|]. simpl. rewrite Hcc, Hcl, Hc, Hk. by split.
Qed.

Lemma hoare_send (Φ : RWMutex → Prop) (msg : Message) :
  hoare (held Φ) (send_guarded msg) (λ _, held Φ).
Proof.
  intros g [(Hr & Hch & Hw) HΦ].
  destruct (writer (connMu g)) eqn:Hwr.
  - rewrite send_guarded_held by exact Hwr.
    split; [|apply quietly_refl]. split; [done|]. split; [done|].
    intros Hf. congruence.
  - destruct (Hw eq_refl) as [Hc Hk].
    rewrite send_guarded_refused by done.
    split; [|apply quietly_refl]. split; [|done]. by split.
Qed.

Lemma hoare_actions_Lock :
  hoare (held (λ _, True)) actions_Lock
        (λ _, held (λ mu, writer mu = true)).
Proof.
  intros g [Hinv _]. unfold actions_Lock.
  destruct (writer (actionsMu g) || bool_decide (0 < readers (actionsMu g)));
    (split; [|apply quietly_refl]); [done|]. by split.
Qed.

Lemma hoare_actions_Unlock :
  hoare (held (λ mu, writer mu = true)) actions_Unlock
        (λ _, held (λ _, True)).
Proof.
  intros g [Hinv Hw]. unfold actions_Unlock. rewrite Hw.
  split; [|apply quietly_refl]. by split.
Qed.

Lemma hoare_actions_RLock :
  hoare (held (λ _, True)) actions_RLock
        (λ _, held (λ mu, 0 < readers mu)).
Proof.
  intros g [Hinv _]. unfold actions_RLock.
  destruct (writer (actionsMu g)); (split; [|apply quietly_refl]);
    [done|]. split; [done|]. simpl. lia.
Qed.

Lemma hoare_actions_RUnlock :
  hoare (held (λ mu, 0 < readers mu)) actions_RUnlock
        (λ _, held (λ _, True)).
Proof.
  intros g [Hinv Hr]. unfold actions_RUnlock.
  destruct (readers (actionsMu g)); [lia|].
  split; [|apply quietly_refl]. by split.
Qed.

Lemma harmless_getc : harmless getc.
Proof.
  intros m. exists (client m), m. do 5 (split; [done|]). apply quietly_refl.
Qed.

Lemma harmless_set_actions (F : Client → gmap string ActionHandler) :
  harmless (modc (λ c, set_actions (F c) c)).
Proof.
  intros m. eexists tt, _. split; [reflexivity|]. simpl.
  do 4 (split; [done|]). by apply quietly_same.
Qed.

Lemma harmless_logf (line : string) : harmless (logf line).
Proof.
  intros m. eexists tt, _. split; [reflexivity|]. simpl.
  do 4 (split; [done|]).
  exists [EvLog line]. split; [done|]. by repeat constructor.
Qed.

Lemma harmless_call_Validate (h : ActionHandler) (data : RawMessage) :
  harmless (call_Validate h data).
Proof.
  intros m. unfold call_Validate.
  destruct (Validate h data (world m)) as [r w].
  eexists r, _. split; [reflexivity|]. simpl. do 4 (split; [done|]).
  exists [EvValidate h data]. split; [done|]. by repeat constructor.
Qed.

Lemma harmless_call_Execute (h : ActionHandler) (st : HState) :
  harmless (call_Execute h st).
Proof.
  intros m. eexists tt, _. split; [reflexivity|]. simpl.
  do 4 (split; [done|]).
  exists [EvExecute h st]. split; [done|]. by repeat constructor.
Qed.

Lemma harmless_RegisterActions_loop (handlers : list ActionHandler)
    (acts : list ActionDefinition) :
  harmless (RegisterActions_loop handlers acts).
Proof.
  revert acts. induction handlers as [|h rest IH]; intros acts m.
  - exists (inr acts), m. do 5 (split; [done|]). apply quietly_refl.
  - simpl. destruct (decide (GetName h = "")).
    + eexists _, m. split; [reflexivity|]. do 4 (split; [done|]).
      apply quietly_refl.
    + unfold bind at 1, modc, modify.
      destruct (IH (acts ++ [definition_of h])%list
                  {| client := set_actions
                                 (<[GetName h := h]> (actions (client m)))
                                 (client m);
                     world := world m; trace := trace m;
                     spawned := spawned m |})
        as (a & m' & E & Hk & Hc & Hcl & Hcc & Hq).
      exists a, m'. split; [exact E|]. by do 4 (split; [done|]).
Qed.

Ltac hoare_step :=
  first
    [ apply hoare_ret
    | apply hoare_send
    | apply hoare_actions_Lock
    | apply hoare_actions_Unlock
    | apply hoare_actions_RLock
    | apply hoare_actions_RUnlock
    | apply hoare_lift;
      first [ apply harmless_getc | apply harmless_set_actions
            | apply harmless_logf | apply harmless_call_Validate
            | apply harmless_call_Execute
            | apply harmless_RegisterActions_loop ] ].

Ltac hoare_seq := eapply hoare_bind; [hoare_step | intros ?].

Lemma hoare_discard {A} (P Q : Guarded → Prop) (f : G A) :
  hoare P f (λ _, Q) → hoare P (discard f) (λ _, Q).
Proof.
  intros Hf. unfold discard. eapply hoare_bind; [exact Hf|].
  intros ?. apply hoare_ret.
Qed.

Lemma hoare_RegisterActions (handlers : list ActionHandler) :
  hoare (held (λ _, True)) (RegisterActions_guarded handlers)
        (λ _, held (λ _, True)).
Proof.
  unfold RegisterActions_guarded. destruct handlers as [|h rest].
  { apply hoare_ret. }
  hoare_seq. hoare_seq.
  eapply hoare_bind.
  { destruct a0 as [e|acts]; [apply hoare_ret | apply hoare_send]. }
  intros res. hoare_seq. apply hoare_ret.
Qed.

Lemma hoare_UnregisterActions (names : list string) :
  hoare (held (λ _, True)) (UnregisterActions_guarded names)
        (λ _, held (λ _, True)).
Proof.
  unfold UnregisterActions_guarded. destruct names as [|n rest].
  { apply hoare_ret. }
  hoare_seq. hoare_seq. cbv zeta. hoare_seq. hoare_seq. apply hoare_ret.
Qed.

Lemma hoare_ForceActions q (names : list string) (opts : list ForceOption) :
  hoare (held (λ _, True)) (ForceActions_guarded q names opts)
        (λ _, held (λ _, True)).
Proof.
  unfold ForceActions_guarded. destruct names; [apply hoare_ret|].
  apply hoare_send.
Qed.

Lemma hoare_handleAction (action : IncomingAction) :
  hoare (held (λ _, True)) (handleAction_guarded action)
        (λ _, held (λ _, True)).
Proof.
  unfold handleAction_guarded. hoare_seq. hoare_seq. cbv zeta.
  hoare_seq.
  destruct (actions a0 !! ActionName action) as [handler|].
  - hoare_seq. destruct a2 as [st result].
    eapply hoare_bind; [apply hoare_send|]. intros err.
    eapply hoare_bind.
    { destruct err; [apply hoare_lift, harmless_logf | apply hoare_ret]. }
    intros ?.
    destruct (Successful result);
      [apply hoare_lift, harmless_call_Execute | apply hoare_ret].
  - eapply hoare_bind; [apply hoare_send|]. intros ?. apply hoare_ret.
Qed.

Lemma hoare_resend :
  hoare (held (λ _, True)) resendRegisteredActions_guarded
        (λ _, held (λ _, True)).
Proof.
  unfold resendRegisteredActions_guarded. hoare_seq. hoare_seq. cbv zeta.
  hoare_seq. destruct (bool_decide _); [|apply hoare_ret].
  eapply hoare_bind; [apply hoare_RegisterActions|]. intros err.
  destruct err; [apply hoare_lift, harmless_logf | apply hoare_ret].
Qed.

Lemma hoare_Close :
  hoare (held (λ _, True)) Close_guarded (λ _, held (λ _, True)).
Proof.
  intros g [(Hr & Hch & Hw) _].
  destruct g as [[c w t sp] [cw cr] amu n]. simpl in Hr, Hch, Hw.
  subst cr. unfold Close_guarded, bindG, Lock. simpl.
  destruct cw; simpl.
  { split; [by repeat split|by apply quietly_same]. }
  destruct (Hw eq_refl) as [Hc Hk].
  unfold lift, Close, bind, getc. simpl.
  destruct (closed c) eqn:Hcl; simpl.
  - split; [|by apply quietly_same]. split; [|done].
    split; [done|]. split; [simpl; congruence|]. done.
  - rewrite Hch, Hk. simpl.
    split; [|by apply quietly_same]. split; [|done].
    split; [done|]. split; [done|]. simpl. by rewrite Hc.
Qed.

Lemma hoare_Connect (D : Dialer) :
  hoare (held (λ _, True)) (Connect D) (λ _, held (λ _, True)).
Proof.
  intros g [(Hr & Hch & Hw) _].
  destruct g as [[c w t sp] [cw cr] amu n]. simpl in Hr, Hch, Hw.
  subst cr. unfold Connect, bindG at 1, Lock. simpl.
  destruct cw; simpl.
  { split; [by repeat split|by apply quietly_same]. }
  destruct (Hw eq_refl) as [Hc Hk].
  unfold bindG at 1, Connect_body, bindG at 1, lift at 1, getc. simpl.
  destruct (closed c) eqn:Hcl; simpl.
  { split; [|by apply quietly_same]. split; [|done].
    split; [done|]. split; [simpl; congruence|]. done. }
  rewrite Hc.
  destruct (url_Parse D (WebsocketURL (config c))) as [u|e]; simpl; cycle 1.
  { split; [|by apply quietly_same]. split; [|done].
    split; [done|]. split; [simpl; congruence|]. done. }
  destruct (Dial D u) as [k|e]; simpl; cycle 1.
  { split; [|by apply quietly_same]. split; [|done].
    split; [done|]. split; [simpl; congruence|]. done. }
  split; [|by apply quietly_same].
  split; [done|]. split; [simpl; congruence|]. done.
Qed.

Lemma hoare_run_guarded (call : GuardedCall) :
  hoare (held (λ _, True)) (run_guarded call) (λ _, held (λ _, True)).
Proof.
  destruct call; simpl;
    first [ apply hoare_handleAction | apply hoare_resend
          | apply hoare_discard ].
  - apply hoare_Connect.
  - apply hoare_Close.
  - apply hoare_send.
  - apply hoare_send.
  - apply hoare_send.
  - apply hoare_send.
  - apply hoare_RegisterActions.
  - apply hoare_UnregisterActions.
  - apply hoare_ForceActions.
Qed.

Lemma runs_keep (calls : list GuardedCall) (g : Guarded) :
  dial_invariant g →
  ∃ g', runs calls g = Some g' ∧ dial_invariant g' ∧
        quietly (inner g) (inner g').
Proof.
  revert g. induction calls as [|call rest IH]; intros g Hg.
  { exists g. split; [done|]. split; [done|apply quietly_refl]. }
  pose proof (hoare_run_guarded call g (conj Hg I)) as H. simpl.
  destruct (run_guarded call g) as [[] g1| |g1]; [|done|].
  - destruct H as [[Hinv _] Hq]. destruct (IH g1 Hinv) as (g' & E & Hi & Hq').
    exists g'. split; [done|]. split; [done|by eapply quietly_trans].
  - destruct H as [Hinv Hq]. destruct (IH g1 Hinv) as (g' & E & Hi & Hq').
    exists g'. split; [done|]. split; [done|by eapply quietly_trans].
Qed.

(** X10. Nothing reaches the transport.  Start from a client on which no
    dial has succeeded (as [NewClient] returns it) and let the program
    make any calls, in any order: [Connect], [Close], the send
    operations, [RegisterActions], [UnregisterActions], [ForceActions],
    and the [handleAction] and [resendRegisteredActions] that the read
    loop starts, each running until it returns or parks.  No call
    panics; none writes a frame or closes the connection (the outside
    calls made are log lines and handler calls only); and whenever the
    client is connected or holds a connection, [connMu] is held for
    writing, so that every [send] and every [Close] from there on is
    parked. *)
Theorem nothing_reaches_the_transport (calls : list GuardedCall)
    (g : Guarded) :
  never_dialled g →
  ∃ g' (new : list Event),
    runs calls g = Some g' ∧
    trace (inner g') = (trace (inner g) ++ new)%list ∧
    Forall off_the_wire new ∧
    (connected (client (inner g')) = true ∨
     is_Some (conn (client (inner g'))) →
     writer (connMu g') = true ∧
     (∀ msg, send_guarded msg g' = Parks g') ∧
     Close_guarded g' = Parks g').
Proof.
  intros ([Hw Hr] & Hk & Hc & Hch).
  destruct (runs_keep calls g) as (g' & E & (Hr' & Hch' & Hw') & new & T & F).
  { split; [done|]. split; [done|]. by intros _. }
  exists g', new. do 3 (split; [done|]).
  intros Hon.
  assert (Hheld : writer (connMu g') = true).
  { destruct (writer (connMu g')); [done|].
    destruct (Hw' eq_refl) as [Hc' Hk'].
    destruct Hon as [Hon|[k Hon]]; congruence. }
  split; [done|]. split.
  - intros msg. by apply send_guarded_held.
  - unfold Close_guarded, bindG, Lock. by rewrite Hheld.
Qed.

End Engine.

Arguments client {World HState X} m : rename.
Arguments world {World HState X} m : rename.
Arguments trace {World HState X} m : rename.
Arguments spawned {World HState X} m : rename.
Arguments config {World HState X} c : rename.
Arguments conn {World HState X} c : rename.
Arguments actions {World HState X} c : rename.
Arguments connected {World HState X} c : rename.
Arguments closed {World HState X} c : rename.
Arguments closeChan {World HState X} c : rename.
Arguments wf {World HState X} m.

(** * A concrete engine

    A host whose state is the list of things its handlers did, a
    transport that remembers the frames it accepted and refuses to write
    once closed, and a few handlers. *)

Definition Host : Type := list string.

Definition decode_frame (frame : string) : Message + error :=
  if decide (frame = "") then
    inr (transport_error "unexpected end of JSON input")
  else inl {| Command := frame; Game := ""; Data := None |}.

Definition decode_action (data : RawMessage) : IncomingAction + error :=
  match data with
  | Some (JObject o) =>
      match o !! "id", o !! "name" with
      | Some (JString id), Some (JString name) =>
          inl {| ID := id; ActionName := name; ActionData := o !! "data" |}
      | _, _ => inr (transport_error "cannot unmarshal into IncomingAction")
      end
  | _ => inr (transport_error "unexpected end of JSON input")
  end.

Definition use_of_closed : error :=
  transport_error "use of closed network connection".

(** A connection is a flag (open or not) and the frames accepted. *)
Definition tcp : Extern :=
  {| Conn := bool * list Message;
     WriteMessage := λ k msg,
       if k.1 then ((true, (k.2 ++ [msg])%list), None) else (k, Some use_of_closed);
     ConnClose := λ k,
       if k.1 then ((false, k.2), None) else (k, Some use_of_closed);
     Unmarshal_Message := decode_frame;
     Unmarshal_IncomingAction := decode_action |}.

Definition by_key : @RangeOrder Host string :=
  {| map_range := λ m, (map_to_list m).*2;
     map_range_perm := λ m, reflexivity _ |}.

Definition ping : @ActionHandler Host string :=
  {| GetName := "ping"; GetDescription := "Ping the game";
     GetSchema := None;
     Validate := λ _ w, (("pong", NewSuccessResult "Pong!"), w);
     Execute := λ st w, (w ++ [st])%list |}.

(** Another handler that also calls itself "ping". *)
Definition ping_again : @ActionHandler Host string :=
  {| GetName := "ping"; GetDescription := "Ping the game once more";
     GetSchema := None;
     Validate := λ _ w, (("pong pong", NewSuccessResult "Pong! Pong!"), w);
     Execute := λ st w, (w ++ [st])%list |}.

Definition move : @ActionHandler Host string :=
  {| GetName := "move"; GetDescription := "Make a move";
     GetSchema := None;
     Validate := λ _ w, (("", NewFailureResult "Not your turn"), w);
     Execute := λ st w, (w ++ [st])%list |}.

Definition unnamed : @ActionHandler Host string :=
  {| GetName := ""; GetDescription := "No name";
     GetSchema := None;
     Validate := λ _ w, (("", NewFailureResult "No"), w);
     Execute := λ _ w, w |}.

Definition game_T : ClientConfig :=
  {| ConfigGame := "T"; WebsocketURL := "ws://localhost:8000" |}.

(** The client [NewClient] returns, before any connection. *)
Definition fresh (X : Extern) : @Client Host string X :=
  {| config := game_T; conn := None; actions := ∅; errChan := [];
     closeChan := false; connected := false; closed := false |}.

(** The client once [Connect] has stored an open connection. *)
Definition dialled (X : Extern) (k : Conn X) : @Client Host string X :=
  {| config := game_T; conn := Some k; actions := ∅; errChan := [];
     closeChan := false; connected := true; closed := false |}.

Definition offline : Machine tcp := start tcp (fresh tcp) [].
Definition online : Machine tcp := start tcp (dialled tcp (true, [])) [].

Definition ping_call : IncomingAction :=
  {| ID := "1"; ActionName := "ping"; ActionData := None |}.

Definition jump_call : IncomingAction :=
  {| ID := "7"; ActionName := "jump"; ActionData := None |}.

Definition turn : @ActionWindow Host string :=
  {| w_actions := [ping]; forceOpts := []; query := "Your move";
     registered := false |}.

Definition borrowed : Message :=
  {| Command := "context"; Game := "someone else"; Data := None |}.

Arguments errChan {World HState X} c : rename.
Arguments inner {World HState X} g : rename.
Arguments connMu {World HState X} g : rename.
Arguments actionsMu {World HState X} g : rename.
Arguments readLoops {World HState X} g : rename.
Arguments lock_free {World HState X} g.
Arguments Returns {World HState X A} a g.
Arguments Panics {World HState X A} why.
Arguments Parks {World HState X A} g.
Arguments events_since {World HState X} m m' evs.
Arguments passive {World HState X} m m' n.

(** A read on the concrete transport: an open connection keeps
    delivering the peer's request to re-register, a closed one fails. *)
Definition tcp_read : Reader tcp :=
  λ k, if k.1 then (k, inl "actions/reregister_all")
       else (k, inr use_of_closed).

(** The dialer of the concrete transport: any non-empty URL parses and
    the dial opens a connection. *)
Definition tcp_dial : Dialer tcp :=
  mkDialer tcp
    (λ s, if decide (s = "") then inr (transport_error "parse: empty url")
          else inl s)
    (λ _, inl ((true, []) : Conn tcp)).

(** The connected engine with "ping" and "move" registered. *)
Definition online_two : Machine tcp :=
  with_actions tcp online (<["ping" := ping]> {[ "move" := move ]}).

(** The engine whose connection failed under it: the client is open but
    the transport handle is closed. *)
Definition cut_off : Machine tcp := start tcp (dialled tcp (false, [])) [].

Definition unlocked (m : @Machine Host string tcp)
  : @Guarded Host string tcp :=
  {| inner := m; connMu := {| writer := false; readers := 0 |};
     actionsMu := {| writer := false; readers := 0 |};
     readLoops := 0 |}.

Definition two_moves : @ActionWindow Host string :=
  {| w_actions := [ping; move]; forceOpts := [WithPriority PriorityMedium];
     query := "Your move"; registered := false |}.

Definition force_jump : @SendOp Host string :=
  OpForceActions "choose" ["jump"] [].


(** The engine that never dialled, with "ping" registered, and with
    "ping" and "move" registered. *)
Definition offline_ping : Machine tcp :=
  with_actions tcp offline {[ "ping" := ping ]}.

Definition offline_two : Machine tcp :=
  with_actions tcp offline (<["ping" := ping]> {[ "move" := move ]}).

(** A session: the program registers "ping" and connects, the peer
    invokes "ping", and the program says goodbye and closes. *)
Definition session : list (@GuardedCall Host string tcp) :=
  [DoRegisterActions tcp [ping]; DoConnect tcp tcp_dial;
   DoHandleAction tcp ping_call; DoSendContext tcp "bye" false;
   DoClose tcp].

Arguments never_dialled {World HState X} g.
Arguments registry_free {World HState X} g.
Arguments can_dial {World HState X} D g k.

(** * The helpers of the package and the example game

    [WrapSchema] and [ParseActionData] of the package, and the handlers
    of [example/main.go] that carry logic: the item giver and the
    tic-tac-toe player.  Their logging is left out; [json.Unmarshal] is a
    parameter. *)

Definition WrapSchema (properties : gmap string json)
    (required : list string) : ActionSchema :=
  {| Type_ := "object"; Properties := properties; Required := required |}.

(** [ParseActionData]: an empty raw message is accepted and leaves the
    target as it is; anything else goes to [json.Unmarshal]. *)
Definition ParseActionData {T} (unmarshal : json → T → T + error)
    (data : RawMessage) (v : T) : T + error :=
  match data with
  | None => inl v
  | Some j => unmarshal j v
  end.

Module Example.

Import Stdlib.Strings.Ascii.
Local Open Scope nat_scope.

(** ** GiveItemAction *)

Record ItemParams := mkItemParams {
  Item : string;
  Quantity : Z;
}.

(** The map built by [NewGiveItemAction]. *)
Definition validItems : gmap string bool :=
  <["sword" := true]> (<["shield" := true]> (<["potion" := true]>
    (<["cookies" := true]> ∅))).

(** [a.validItems[item]]: a missing key reads as [false]. *)
Definition is_valid (items : gmap string bool) (item : string) : bool :=
  default false (items !! item).

(** The state is [nil] ([None]) when validation fails. *)
Definition GiveItemAction_Validate
    (unmarshal : json → ItemParams → ItemParams + error)
    (items : gmap string bool) (data : RawMessage)
  : option ItemParams * ExecutionResult :=
  match ParseActionData unmarshal data {| Item := ""; Quantity := 0 |} with
  | inr _ => (None, NewFailureResult "Invalid parameters")
  | inl params =>
      if negb (is_valid items (Item params)) then
        (None, NewFailureResult ("Invalid item: " ++ Item params))
      else
        let params :=
          if decide (Quantity params ≤ 0)%Z
          then {| Item := Item params; Quantity := 1 |}
          else params in
        (Some params, NewSuccessResult "Giving item to player")
  end.

(** ** TicTacToeGame *)

(** [board [9]string]. *)
Abbreviation Board := (list string).
Definition board_ok (b : Board) : Prop := length b = 9.
Definition NewBoard : Board := replicate 9 "".

(** [string(rune('1' + i))] *)
Definition cell_name (i : nat) : string :=
  String (ascii_of_nat (49 + i)) "".

Fixpoint available_from (i : nat) (b : list string) : list string :=
  match b with
  | [] => []
  | cell :: rest =>
      if decide (cell = "") then cell_name i :: available_from (S i) rest
      else available_from (S i) rest
  end.

Definition GetAvailableCells (b : Board) : list string := available_from 0 b.

(** [int(cell[0] - '1')]: the subtraction is on bytes and wraps. *)
Definition byte_minus_1 (c : ascii) : nat :=
  (nat_of_ascii c + 256 - 49) mod 256.

Definition IsCellAvailable (b : Board) (cell : string) : bool :=
  if negb (String.length cell =? 1) then false
  else
    match cell with
    | String c _ =>
        let idx := byte_minus_1 c in
        if (idx <? 0) || (8 <? idx) then false
        else bool_decide (b !!! idx = "")
    | EmptyString => false
    end.

(** [None] is a run-time panic: [cell[0]] on an empty string, or an
    index outside the array. *)
Definition PlayInCell (b : Board) (cell : string) : option Board :=
  match cell with
  | String c _ =>
      let idx := byte_minus_1 c in
      if decide (idx < 9) then Some (<[idx := "O"]> b) else None
  | EmptyString => None
  end.

(** ** PlayAction *)

Record PlayParams := mkPlayParams { Cell : string }.

Definition PlayAction_GetSchema (b : Board) : ActionSchema :=
  WrapSchema
    {[ "cell" :=
         JObject (<["type" := JString "string"]>
                    (<["description" := JString "Cell number (1-9)"]>
                       {[ "enum" := json_strings (GetAvailableCells b) ]})) ]}
    ["cell"].

Definition PlayAction_Validate
    (unmarshal : json → PlayParams → PlayParams + error)
    (b : Board) (data : RawMessage) : option string * ExecutionResult :=
  match ParseActionData unmarshal data {| Cell := "" |} with
  | inr _ => (None, NewFailureResult "Invalid action data")
  | inl params =>
      if decide (Cell params = "") then
        (None, NewFailureResult "Missing required parameter 'cell'")
      else if negb (IsCellAvailable b (Cell params)) then
        (None, NewFailureResult
                 ("Cell " ++ Cell params ++ " is not available"))
      else
        (Some (Cell params),
         NewSuccessResult ("Playing in cell " ++ Cell params))
  end.

(** [state.(string)] panics on a [nil] state. *)
Definition PlayAction_Execute (b : Board) (state : option string)
  : option Board :=
  match state with
  | Some cell => PlayInCell b cell
  | None => None
  end.

(** *** A decoder and sample data

    A decoding of the two parameter structs that follows
    [json.Unmarshal] on objects with exactly spelled keys: a missing key
    leaves the field, a value of the wrong type is an error. *)

Definition decode_error : error :=
  transport_error "json: cannot unmarshal value into Go struct field".

Definition unmarshal_play (j : json) (v : PlayParams)
  : PlayParams + error :=
  match j with
  | JNull => inl v
  | JObject o =>
      match o !! "cell" with
      | None => inl v
      | Some (JString s) => inl {| Cell := s |}
      | Some _ => inr decode_error
      end
  | _ => inr decode_error
  end.

Definition unmarshal_item (j : json) (v : ItemParams)
  : ItemParams + error :=
  match j with
  | JNull => inl v
  | JObject o =>
      match o !! "item", o !! "quantity" with
      | Some (JString s), Some (JNum q) => inl {| Item := s; Quantity := q |}
      | Some (JString s), None => inl {| Item := s; Quantity := Quantity v |}
      | None, Some (JNum q) => inl {| Item := Item v; Quantity := q |}
      | None, None => inl v
      | _, _ => inr decode_error
      end
  | _ => inr decode_error
  end.

(** A board with an X in the middle. *)
Definition middle_taken : Board := <[4 := "X"]> NewBoard.

Definition play_corner : RawMessage :=
  Some (JObject {[ "cell" := JString "1" ]}).

Definition many_potions : RawMessage :=
  Some (JObject (<["item" := JString "potion"]>
                   {[ "quantity" := JNum 500 ]})).

End Example.

Lemma NewClient_fresh : NewClient tcp game_T = inl (fresh tcp).
Proof. reflexivity. Qed.

Lemma wf_offline : wf offline.
Proof. split; [discriminate | reflexivity]. Defined.

Lemma wf_online : wf online.
Proof. split; [intros _; by eexists | reflexivity]. Defined.

(** ** Sends on the closed concrete engine *)

(** An engine that was never connected, closed, then asked to send. *)
Lemma sends_after_Close_witness :
  wf offline ∧
  connected (client offline) = false ∧
  ∃ r0 m1 e m2,
    Close tcp offline = Ok r0 m1 ∧
    closed (client m1) = true ∧
    run_send_op tcp (OpSendContext "hello" false) m1 = Ok (Some e) m2 ∧
    error_kind e = StateError ∧
    trace m2 = trace m1.
Proof.
  split; [exact wf_offline|]. split; [reflexivity|].
  destruct (sends_after_Close tcp offline wf_offline eq_refl)
    as (r0 & m1 & E & Hcl & Hops).
  destruct (proj1 (Hops (OpSendContext "hello" false)) I)
    as (e & m2 & E2 & K & T).
  by exists r0, m1, e, m2.
Defined.

(** The counterexample to C3 as stated.  (1) On a closed engine that was
    never connected, [ForceActions] with no name fails with the
    validation error, not with a state error.  (2) On an engine closed
    after a connection was stored, [SendContext] still passes the
    [connected] test, calls [WriteMessage] on the handle that [Close]
    released, and returns the transport's write error, not a state
    error. *)
Lemma sends_after_Close_counterexample :
  (∃ m1 e m2,
     Close tcp offline = Ok None m1 ∧
     closed (client m1) = true ∧
     ForceActions tcp "choose" [] [] m1 = Ok (Some e) m2 ∧
     error_kind e ≠ StateError) ∧
  (∃ m1 r m2 wire werr,
     Close tcp online = Ok None m1 ∧
     closed (client m1) = true ∧
     SendContext tcp "hello" false m1 = Ok r m2 ∧
     ¬ fails_with r StateError ∧
     trace m2 = [EvConnClose None; EvWrite wire werr]).
Proof.
  split.
  - eexists _, _, _. split; [reflexivity|]. split; [reflexivity|].
    split; [reflexivity|]. discriminate.
  - eexists _, _, _, _, _. split; [reflexivity|]. split; [reflexivity|].
    split; [vm_compute; reflexivity|]. split; [|reflexivity].
    intros (e & [= <-] & K). discriminate K.
Qed.

(** ** The window on the concrete engine *)



(** ** Registration on the concrete engine *)

Lemma named_ping_move : Forall named [ping; move].
Proof. repeat constructor; discriminate. Defined.

Lemma RegisterActions_lookup_witness :
  wf online ∧
  Forall named [ping; move] ∧
  ∃ r m',
    RegisterActions tcp [ping; move] online = Ok r m' ∧
    actions (client m') !! "ping" = Some ping ∧
    actions (client m') !! "move" = Some move.
Proof.
  split; [exact wf_online|]. split; [exact named_ping_move|].
  destruct (RegisterActions_lookup tcp [ping; move] online
              wf_online named_ping_move) as (r & m' & E & _ & Hsame).
  exists r, m'. split; [exact E|]. split.
  - apply (Hsame 0 ping eq_refl). intros [|[|j]] h' Hlt Hj.
    + exfalso. lia.
    + injection Hj as <-. discriminate.
    + discriminate Hj.
  - apply (Hsame 1 move eq_refl). intros [|[|j]] h' Hlt Hj.
    + exfalso. lia.
    + exfalso. lia.
    + discriminate Hj.
Defined.

(** The counterexample to C6 as stated.  (1) A list with a named handler
    and, after an unnamed one, the handler "move": the call stops at the
    unnamed handler and "move" is not in the registry.  (2) A list with
    two handlers named "ping": the lookup returns the second, not the
    first. *)
Lemma RegisterActions_lookup_counterexample :
  (∃ r m',
     RegisterActions tcp [ping; unnamed; move] online = Ok r m' ∧
     GetName ping ≠ "" ∧
     move ∈ [ping; unnamed; move] ∧
     actions (client m') !! GetName move ≠ Some move) ∧
  (∃ r m',
     RegisterActions tcp [ping; ping_again] online = Ok r m' ∧
     Forall named [ping; ping_again] ∧
     ping ∈ [ping; ping_again] ∧
     actions (client m') !! GetName ping ≠ Some ping).
Proof.
  split.
  - eexists _, _. split; [vm_compute; reflexivity|]. split; [discriminate|].
    split; [by repeat constructor|]. vm_compute. discriminate.
  - eexists _, _. split; [vm_compute; reflexivity|].
    split; [repeat constructor; discriminate|].
    split; [by repeat constructor|]. vm_compute. intros [=].
Qed.



(** ** Outbound frames of the concrete engine *)

Lemma outbound_game_is_configured_witness :
  wf online ∧
  ∃ m',
    run_calls tcp by_key
      [CallSend borrowed; CallSendContext "hello" false;
       CallRegisterActions [ping]; CallGoroutine (GoHandleAction ping_call)]
      online = Ok tt m' ∧
    ∃ evs : list Event,
      trace m' = evs ∧
      ∀ msg werr, EvWrite msg werr ∈ evs → Game msg = "T".
Proof.
  split; [exact wf_online|].
  destruct (proj2 (outbound_game_is_configured tcp by_key)
              [CallSend borrowed; CallSendContext "hello" false;
               CallRegisterActions [ping];
               CallGoroutine (GoHandleAction ping_call)]
              online wf_online)
    as (m' & E & _ & evs & T & G).
  exists m'. split; [exact E|]. exists evs. split; [exact T | exact G].
Defined.

(** ** Re-advertisement on the concrete engine *)

Lemma reregister_all_empty_registry_witness :
  Unmarshal_Message tcp "actions/reregister_all"
    = inl {| Command := "actions/reregister_all"; Game := "";
             Data := None |} ∧
  ∃ m1,
    handleMessage tcp "actions/reregister_all" online = Ok None m1 ∧
    spawned m1 = [GoResendRegisteredActions] ∧
    run_goroutine tcp by_key GoResendRegisteredActions m1 = Ok tt m1.
Proof.
  split; [reflexivity|].
  destruct (reregister_all_empty_registry tcp by_key
              "actions/reregister_all"
              {| Command := "actions/reregister_all"; Game := "";
                 Data := None |}
              online eq_refl eq_refl)
    as ((m1 & E & Hc & _ & Hsp) & Hrun).
  exists m1. split; [exact E|]. split; [exact Hsp|].
  apply Hrun. rewrite Hc. reflexivity.
Defined.

(** * The further properties on the concrete engine *)

Lemma wf_online_two : wf online_two.
Proof. split; [intros _; by eexists | reflexivity]. Defined.

Lemma registry_ok_online_two : registry_ok (actions (client online_two)).
Proof.
  intros key h Hkey. unfold online_two in Hkey. simpl in Hkey.
  destruct (decide (key = "ping")) as [->|Hp].
  - rewrite lookup_insert_eq in Hkey. injection Hkey as <-. by split.
  - rewrite lookup_insert_ne in Hkey by done.
    destruct (decide (key = "move")) as [->|Hm].
    + rewrite lookup_singleton_eq in Hkey. injection Hkey as <-. by split.
    + by rewrite lookup_singleton_ne in Hkey.
Defined.


Lemma RegisterActions_not_connected_witness :
  connected (client offline) = false ∧
  [ping; move] ≠ [] ∧
  Forall named [ping; move] ∧
  ∃ e m',
    RegisterActions tcp [ping; move] offline = Ok (Some e) m' ∧
    error_kind e = StateError ∧
    is_Some (actions (client m') !! "move").
Proof.
  split; [reflexivity|]. split; [discriminate|].
  split; [exact named_ping_move|].
  destruct (RegisterActions_not_connected tcp [ping; move] offline
              eq_refl ltac:(discriminate) named_ping_move)
    as (e & m' & E & K & _ & Hin & _).
  exists e, m'. split; [exact E|]. split; [exact K|].
  apply (Hin move). by repeat constructor.
Defined.


Lemma no_later_ping j (h' : @ActionHandler Host string) :
  0 < j → [ping; move] !! j = Some h' → GetName h' ≠ GetName ping.
Proof.
  intros Hlt Hj. destruct j as [|[|j]].
  - exfalso. lia.
  - injection Hj as <-. discriminate.
  - discriminate Hj.
Defined.



Lemma handleMessage_only_dispatches_witness :
  ∃ r m' gs,
    handleMessage tcp "mystery" online = Ok r m' ∧
    client m' = client online ∧
    spawned m' = gs ∧
    r = None ∧ gs = [].
Proof.
  destruct (handleMessage_only_dispatches tcp "mystery" online)
    as (r & m' & new & gs & E & Hc & _ & _ & _ & Hsp & _ & _ & _ & Hunk).
  destruct (Hunk {| Command := "mystery"; Game := ""; Data := None |}
              eq_refl ltac:(discriminate) ltac:(discriminate)) as [-> ->].
  exists None, m', []. split; [exact E|]. split; [exact Hc|].
  split; [exact Hsp|]. by split.
Defined.

Lemma NewClient_spec_witness :
  NewClient tcp game_T = inl (fresh tcp) ∧
  ∃ e m2,
    run_send_op tcp (OpSendContext "hello" false) (start tcp (fresh tcp) [])
      = Ok (Some e) m2 ∧
    error_kind e = StateError.
Proof.
  split; [reflexivity|].
  destruct (proj2 (proj2 (@NewClient_spec Host string tcp game_T))
              (fresh tcp) eq_refl)
    as (_ & _ & _ & _ & _ & Hsend).
  destruct (Hsend [] (OpSendContext "hello" false) I) as (e & m2 & E & K & _).
  by exists e, m2.
Defined.


Lemma readLoop_is_passive_witness :
  (closeChan (client online_two) = true ∨
   is_Some (conn (client online_two))) ∧
  ∃ e m',
    readLoop tcp tcp_read 3 online_two = Ok e m' ∧
    actions (client m') = actions (client online_two) ∧
    world m' = world online_two.
Proof.
  assert (Hpre : closeChan (client online_two) = true ∨
                 is_Some (conn (client online_two)))
    by (right; by eexists).
  split; [exact Hpre|].
  destruct (readLoop_is_passive tcp tcp_read 3 online_two Hpre)
    as (e & m' & E & (A & _ & _ & _ & _ & _ & W & _) & _).
  by exists e, m'.
Defined.

Lemma readLoop_ends_witness :
  closeChan (client cut_off) = false ∧
  conn (client cut_off) = Some (false, []) ∧
  tcp_read (false, []) = ((false, []), inr use_of_closed) ∧
  ∃ m',
    readLoop tcp tcp_read 5 cut_off = Ok LoopReturned m' ∧
    errChan (client m') = [fmt_Errorf "read error" use_of_closed] ∧
    connected (client m') = true.
Proof.
  split; [reflexivity|]. split; [reflexivity|]. split; [reflexivity|].
  destruct (proj2 (readLoop_ends tcp tcp_read 4 cut_off) (false, [])
              (false, []) use_of_closed eq_refl eq_refl eq_refl)
    as (ending & m' & E & _ & _ & _ & _ & _ & Hc & _ & Hroom & _).
  destruct (Hroom eq_refl) as (-> & Herr & _).
  { unfold errChan_cap. simpl. lia. }
  exists m'. split; [exact E|]. split; [exact Herr | exact Hc].
Defined.

Lemma lock_free_unlocked m : lock_free (unlocked m).
Proof. by split. Defined.

Lemma Connect_refuses_witness :
  lock_free (unlocked online) ∧
  connected (client (inner (unlocked online))) = true ∧
  Connect tcp tcp_dial (unlocked online)
    = Returns (Some (errors_New "already connected")) (unlocked online).
Proof.
  split; [apply lock_free_unlocked|]. split; [reflexivity|].
  destruct (Connect_refuses tcp tcp_dial (unlocked online)
              (lock_free_unlocked online)) as (_ & Hconn & _).
  exact (Hconn eq_refl eq_refl).
Defined.

Lemma Connect_parks_on_its_own_lock_witness :
  lock_free (unlocked offline) ∧
  closed (client offline) = false ∧
  connected (client offline) = false ∧
  url_Parse tcp tcp_dial "ws://localhost:8000" = inl "ws://localhost:8000" ∧
  Dial tcp tcp_dial "ws://localhost:8000" = inl (true, []) ∧
  ∃ g',
    Connect tcp tcp_dial (unlocked offline) = Parks g' ∧
    connected (client (inner g')) = true ∧
    trace (inner g') = [] ∧
    Close_guarded tcp g' = Parks g'.
Proof.
  split; [apply lock_free_unlocked|]. do 4 (split; [reflexivity|]).
  destruct (Connect_parks_on_its_own_lock tcp tcp_dial (unlocked offline)
              "ws://localhost:8000" (true, [])
              (lock_free_unlocked offline) eq_refl eq_refl eq_refl eq_refl)
    as (g' & E & _ & _ & Hc & _ & T & _ & Hclose).
  by exists g'.
Defined.

(** ** The methods on the concrete client, before and after the dial *)

Lemma registry_free_unlocked m : registry_free (unlocked m).
Proof. by split. Defined.

Lemma can_dial_unlocked (m : Machine tcp) :
  closed (client m) = false →
  connected (client m) = false →
  config (client m) = game_T →
  can_dial tcp_dial (unlocked m) (true, []).
Proof.
  intros Hcl Hc Hcfg. split; [apply lock_free_unlocked|].
  split; [exact Hcl|]. split; [exact Hc|].
  exists "ws://localhost:8000". simpl. rewrite Hcfg. by split.
Defined.

Lemma wf_offline_two : wf offline_two.
Proof. split; [discriminate | reflexivity]. Defined.

Lemma registry_ok_offline_ping :
  registry_ok (actions (client offline_ping)).
Proof.
  intros key h Hkey. unfold offline_ping in Hkey. simpl in Hkey.
  destruct (decide (key = "ping")) as [->|Hp].
  - rewrite lookup_singleton_eq in Hkey. injection Hkey as <-. by split.
  - by rewrite lookup_singleton_ne in Hkey.
Defined.

Lemma offline_ping_not_empty : actions (client offline_ping) ≠ ∅.
Proof.
  intros Hempty.
  assert (H : actions (client offline_ping) !! "ping" = Some ping)
    by (vm_compute; reflexivity).
  rewrite Hempty in H. by rewrite lookup_empty in H.
Defined.

(** "ping" is registered on the new client (the call is refused, the
    handler stored), the dial succeeds, and the peer invokes "ping":
    [Validate] accepts, and that is all that happens. *)
Lemma handleAction_parks_before_result_witness :
  RegisterActions_guarded tcp [ping] (unlocked offline)
    = Returns (Some (errors_New "not connected")) (unlocked offline_ping) ∧
  can_dial tcp_dial (unlocked offline_ping) (true, []) ∧
  actions (client offline_ping) !! ActionName ping_call = Some ping ∧
  Successful (Validate ping None []).1.2 = true ∧
  ∃ g1 g2,
    Connect tcp tcp_dial (unlocked offline_ping) = Parks g1 ∧
    handleAction_guarded tcp ping_call g1 = Parks g2 ∧
    trace (inner g2) = [EvValidate ping None] ∧
    world (inner g2) = [].
Proof.
  split; [vm_compute; reflexivity|].
  split; [by apply can_dial_unlocked|].
  split; [vm_compute; reflexivity|]. split; [reflexivity|].
  destruct (handleAction_parks_before_result tcp tcp_dial
              (unlocked offline_ping) (true, []) ping_call ping
              (can_dial_unlocked offline_ping eq_refl eq_refl eq_refl)
              eq_refl ltac:(vm_compute; reflexivity))
    as (g1 & g2 & E1 & E2 & T & W & _).
  exists g1, g2. split; [exact E1|]. split; [exact E2|].
  split; [exact T | exact W].
Defined.

(** The peer invokes "jump", which nobody registered: no answer. *)
Lemma handleAction_unknown_parks_witness :
  can_dial tcp_dial (unlocked offline_ping) (true, []) ∧
  actions (client offline_ping) !! ActionName jump_call = None ∧
  ∃ g1,
    Connect tcp tcp_dial (unlocked offline_ping) = Parks g1 ∧
    handleAction_guarded tcp jump_call g1 = Parks g1 ∧
    trace (inner g1) = [].
Proof.
  split; [by apply can_dial_unlocked|].
  split; [vm_compute; reflexivity|].
  destruct (handleAction_unknown_parks tcp tcp_dial
              (unlocked offline_ping) (true, []) jump_call
              (can_dial_unlocked offline_ping eq_refl eq_refl eq_refl)
              eq_refl ltac:(vm_compute; reflexivity))
    as (g1 & E1 & E2 & T & _).
  exists g1. split; [exact E1|]. split; [exact E2 | exact T].
Defined.

(** The scenario of the spec,
    [ForceActions("choose", ["a","b"], priority high, ephemeral true)]:
    the envelope is as described, and it is written neither before nor
    after the dial. *)
Lemma ForceActions_guarded_spec_witness :
  (∃ payload : gmap string json,
     (∀ g : @Guarded Host string tcp,
        ForceActions_guarded tcp "choose" ["a"; "b"]
          [WithPriority PriorityHigh; WithEphemeralContext true] g
        = send_guarded tcp {| Command := "actions/force"; Game := "";
                              Data := Some (JObject payload) |} g) ∧
     payload !! "query" = Some (JString "choose") ∧
     payload !! "action_names" = Some (JArray [JString "a"; JString "b"]) ∧
     payload !! "ephemeral_context" = Some (JBool true) ∧
     payload !! "priority" = Some (JString "high") ∧
     payload !! "state" = None) ∧
  ForceActions_guarded tcp "choose" ["a"; "b"]
    [WithPriority PriorityHigh; WithEphemeralContext true] (unlocked offline)
  = Returns (Some (errors_New "not connected")) (unlocked offline) ∧
  ∃ g1,
    Connect tcp tcp_dial (unlocked offline) = Parks g1 ∧
    ForceActions_guarded tcp "choose" ["a"; "b"]
      [WithPriority PriorityHigh; WithEphemeralContext true] g1
    = Parks g1 ∧
    trace (inner g1) = [].
Proof.
  destruct (@ForceActions_guarded_spec Host string tcp) as (_ & Hpay & Hoff & Hon).
  split; [|split].
  - exact (Hpay "choose" ["a"; "b"]
             [SetPriority PriorityHigh; SetEphemeralContext true]
             ltac:(discriminate)).
  - exact (Hoff "choose" ["a"; "b"] _ (unlocked offline)
             ltac:(discriminate) eq_refl eq_refl).
  - exact (Hon tcp_dial (unlocked offline) (true, []) "choose" ["a"; "b"]
             [WithPriority PriorityHigh; WithEphemeralContext true]
             ltac:(discriminate)
             (can_dial_unlocked offline eq_refl eq_refl eq_refl)).
Defined.

(** [Close] twice on the client that never dialled, and [Close] after
    the dial. *)
Lemma Close_guarded_twice_witness :
  (∃ g1,
     Close_guarded tcp (unlocked offline) = Returns None g1 ∧
     closed (client (inner g1)) = true ∧
     Close_guarded tcp g1 = Returns None g1) ∧
  (∃ g1,
     Connect tcp tcp_dial (unlocked offline) = Parks g1 ∧
     Close_guarded tcp g1 = Parks g1 ∧
     closed (client (inner g1)) = false).
Proof.
  destruct (@Close_guarded_twice Host string tcp) as [Hoff Hon]. split.
  - destruct (Hoff (unlocked offline) (lock_free_unlocked offline)
                eq_refl eq_refl)
      as (g1 & E1 & Hcl & _ & _ & _ & E2).
    by exists g1.
  - destruct (Hon tcp_dial (unlocked offline) (true, [])
                (can_dial_unlocked offline eq_refl eq_refl eq_refl))
      as (g1 & E1 & E2 & Hcl & _).
    by exists g1.
Defined.

(** ** The registry on the concrete client *)

Lemma UnregisterActions_guarded_removes_witness :
  ["ping"] ≠ [] ∧
  registry_free (unlocked offline_two) ∧
  ∃ g',
    UnregisterActions_guarded tcp ["ping"] (unlocked offline_two)
      = Returns (Some (errors_New "not connected")) g' ∧
    actions (client (inner g')) !! "ping" = None ∧
    actions (client (inner g')) !! "move" = Some move ∧
    trace (inner g') = [].
Proof.
  split; [discriminate|]. split; [apply registry_free_unlocked|].
  destruct (proj2 (@UnregisterActions_guarded_removes Host string tcp) ["ping"]
              (unlocked offline_two) ltac:(discriminate)
              (registry_free_unlocked offline_two))
    as (g' & Hlook & _ & T & Hcase).
  simpl in Hcase. destruct (Hcase eq_refl) as [E _].
  exists g'. split; [exact E|]. split; [|split; [|exact T]].
  - rewrite (Hlook "ping"). reflexivity.
  - rewrite (Hlook "move"). vm_compute. reflexivity.
Defined.

Lemma RegisterActions_parks_holding_registry_witness :
  can_dial tcp_dial (unlocked offline) (true, []) ∧
  registry_free (unlocked offline) ∧
  Forall named [ping] ∧
  ∃ g1 g2,
    Connect tcp tcp_dial (unlocked offline) = Parks g1 ∧
    RegisterActions_guarded tcp [ping] g1 = Parks g2 ∧
    actions (client (inner g2)) !! "ping" = Some ping ∧
    trace (inner g2) = [] ∧
    handleAction_guarded tcp ping_call g2 = Parks g2.
Proof.
  split; [by apply can_dial_unlocked|].
  split; [apply registry_free_unlocked|].
  split; [repeat constructor; discriminate|].
  destruct (RegisterActions_parks_holding_registry tcp tcp_dial
              (unlocked offline) (true, []) [ping]
              (can_dial_unlocked offline eq_refl eq_refl eq_refl)
              (registry_free_unlocked offline) ltac:(discriminate)
              ltac:(repeat constructor; discriminate))
    as (g1 & g2 & E1 & E2 & Ha & T & _ & _ & Hhandle & _).
  exists g1, g2. split; [exact E1|]. split; [exact E2|].
  split; [rewrite Ha; vm_compute; reflexivity|].
  split; [exact T | apply Hhandle].
Defined.

Lemma resend_parks_holding_registry_witness :
  can_dial tcp_dial (unlocked offline_ping) (true, []) ∧
  registry_free (unlocked offline_ping) ∧
  registry_ok (actions (client offline_ping)) ∧
  actions (client offline_ping) ≠ ∅ ∧
  ∃ g1 g2,
    Connect tcp tcp_dial (unlocked offline_ping) = Parks g1 ∧
    resendRegisteredActions_guarded tcp by_key g1 = Parks g2 ∧
    trace (inner g2) = [] ∧
    handleAction_guarded tcp ping_call g2 = Parks g2.
Proof.
  split; [by apply can_dial_unlocked|].
  split; [apply registry_free_unlocked|].
  split; [exact registry_ok_offline_ping|].
  split; [exact offline_ping_not_empty|].
  destruct (resend_parks_holding_registry tcp by_key tcp_dial
              (unlocked offline_ping) (true, [])
              (can_dial_unlocked offline_ping eq_refl eq_refl eq_refl)
              (registry_free_unlocked offline_ping)
              registry_ok_offline_ping)
    as (g1 & E1 & _ & Hfull).
  destruct (Hfull offline_ping_not_empty)
    as (g2 & E2 & _ & T & _ & _ & Hhandle).
  exists g1, g2. split; [exact E1|]. split; [exact E2|].
  split; [exact T | apply Hhandle].
Defined.

Lemma unregistered_is_unknown_witness :
  wf offline_two ∧
  ["ping"] ≠ [] ∧
  ∃ r m1 m2 new,
    UnregisterActions tcp ["ping"] offline_two = Ok r m1 ∧
    actions (client m1) !! "ping" = None ∧
    handleAction tcp ping_call m1 = Ok tt m2 ∧
    events_since m1 m2 new ∧
    Forall no_handler_call new ∧
    world m2 = world m1.
Proof.
  split; [exact wf_offline_two|]. split; [discriminate|].
  destruct (unregistered_is_unknown tcp ["ping"] offline_two wf_offline_two
              ltac:(discriminate)) as (r & m1 & E & Hunk).
  destruct (Hunk ping_call ltac:(by repeat constructor))
    as (Hnone & m2 & new & E2 & T & Hq & W).
  by exists r, m1, m2, new.
Defined.


(** ** A session on the concrete client *)

Lemma nothing_reaches_the_transport_witness :
  never_dialled (unlocked offline) ∧
  ∃ g' new,
    runs tcp by_key session (unlocked offline) = Some g' ∧
    trace (inner g') = new ∧
    Forall off_the_wire new ∧
    connected (client (inner g')) = true ∧
    writer (connMu g') = true.
Proof.
  assert (Hnew : never_dialled (unlocked offline)) by by repeat split.
  split; [exact Hnew|].
  destruct (nothing_reaches_the_transport tcp by_key session
              (unlocked offline) Hnew) as (g' & new & E & T & F & Hon).
  assert (Hc : connected (client (inner g')) = true).
  { vm_compute in E. by injection E as <-. }
  exists g', new. split; [exact E|]. split; [exact T|].
  split; [exact F|]. split; [exact Hc|].
  exact (proj1 (Hon (or_introl Hc))).
Defined.

(** * The example game

    What the actions of the example keep of the board. *)

Section ExampleFacts.
Import Stdlib.Strings.Ascii Example.
Local Open Scope nat_scope.

(** *** Cells and indices *)

Lemma byte_minus_1_small (c : ascii) :
  byte_minus_1 c ≤ 8 ↔ 49 ≤ nat_of_ascii c ≤ 57.
Proof.
  unfold byte_minus_1. pose proof (nat_ascii_bounded c) as Hb.
  destruct (le_lt_dec 49 (nat_of_ascii c)) as [Hge|Hlt].
  - replace ((nat_of_ascii c + 256 - 49) mod 256)
      with (nat_of_ascii c - 49);
      [lia|]. apply (Nat.mod_unique _ _ 1); lia.
  - rewrite Nat.mod_small by lia. lia.
Qed.

Lemma byte_minus_1_digit (c : ascii) :
  49 ≤ nat_of_ascii c → byte_minus_1 c = nat_of_ascii c - 49.
Proof.
  intros Hge. unfold byte_minus_1. pose proof (nat_ascii_bounded c) as Hb.
  symmetry. apply (Nat.mod_unique _ _ 1); lia.
Qed.

Lemma cell_name_index (i : nat) :
  i ≤ 8 → byte_minus_1 (ascii_of_nat (49 + i)) = i.
Proof.
  intros Hi. rewrite byte_minus_1_digit;
    rewrite nat_ascii_embedding by lia; lia.
Qed.

(** The strings on which [IsCellAvailable] looks at the board. *)
Lemma cell_name_inj c rest i :
  String c rest = cell_name i → c = ascii_of_nat (49 + i) ∧ rest = "".
Proof. unfold cell_name. by intros [= -> ->]. Qed.

Lemma IsCellAvailable_true (b : Board) (cell : string) :
  IsCellAvailable b cell = true ↔
  ∃ i, i ≤ 8 ∧ cell = cell_name i ∧ b !!! i = "".
Proof.
  unfold IsCellAvailable. destruct cell as [|c rest].
  { split; [done | by intros (i & _ & [=] & _)]. }
  destruct rest as [|c' rest].
  2: { split; [done|]. intros (i & _ & Heq & _).
       by apply cell_name_inj in Heq as [_ [=]]. }
  change (negb (String.length (String c "") =? 1)) with false.
  cbv iota zeta. change (byte_minus_1 c <? 0) with false.
  rewrite orb_false_l.
  destruct (8 <? byte_minus_1 c) eqn:Hidx.
  - apply Nat.ltb_lt in Hidx. split; [done|].
    intros (i & Hi & Heq & _). apply cell_name_inj in Heq as [-> _].
    rewrite cell_name_index in Hidx; lia.
  - apply Nat.ltb_ge in Hidx. rewrite bool_decide_eq_true.
    pose proof (proj1 (byte_minus_1_small c) Hidx) as Hd.
    split.
    + intros Hfree. exists (byte_minus_1 c). split; [done|].
      split; [|done]. unfold cell_name. f_equal.
      rewrite byte_minus_1_digit by lia.
      replace (49 + (nat_of_ascii c - 49)) with (nat_of_ascii c) by lia.
      by rewrite ascii_nat_embedding.
    + intros (i & Hi & Heq & Hfree). apply cell_name_inj in Heq as [-> _].
      by rewrite cell_name_index.
Qed.

Lemma elem_of_available_from (x : string) (i : nat) (b : list string) :
  x ∈ available_from i b ↔ ∃ j, b !! j = Some "" ∧ x = cell_name (i + j).
Proof.
  revert i. induction b as [|cell rest IH]; intros i; simpl.
  - split; [by intros ?%not_elem_of_nil | by intros (j & ? & _)].
  - destruct (decide (cell = "")) as [->|Hne].
    + rewrite elem_of_cons, IH. split.
      * intros [->|(j & Hj & ->)].
        -- exists 0. by rewrite Nat.add_0_r.
        -- exists (S j). split; [done|]. f_equal. lia.
      * intros ([|j] & Hj & ->).
        -- left. by rewrite Nat.add_0_r.
        -- right. exists j. split; [done|]. f_equal. lia.
    + rewrite IH. split.
      * intros (j & Hj & ->). exists (S j). split; [done|]. f_equal. lia.
      * intros ([|j] & Hj & ->).
        -- simpl in Hj. congruence.
        -- exists j. split; [done|]. f_equal. lia.
Qed.

Lemma board_lookup (b : Board) (i : nat) :
  board_ok b → i ≤ 8 → (b !!! i = "" ↔ b !! i = Some "").
Proof.
  intros Hb Hi. destruct (lookup_lt_is_Some_2 b i) as [s Hs];
    [unfold board_ok in Hb; lia|].
  rewrite (list_lookup_total_correct _ _ _ Hs), Hs.
  split; [by intros -> | by intros [= ->]].
Qed.

Lemma available_cell_is_empty (b : Board) (cell : string) :
  board_ok b → IsCellAvailable b cell = true →
  ∃ i, i ≤ 8 ∧ cell = cell_name i ∧ b !! i = Some "".
Proof.
  intros Hb Hav. apply IsCellAvailable_true in Hav as (i & Hi & -> & Hf).
  exists i. split; [done|]. split; [done|]. by apply board_lookup.
Qed.

(** X20. The cells the schema of the play action advertises, the cells
    [GetAvailableCells] lists and the cells [IsCellAvailable] accepts
    are the same: on a board of nine cells a string is accepted exactly
    when it is in the list, and the list is the [enum] of the schema's
    [cell] property.  An accepted string is one character between "1"
    and "9" naming an empty cell; a character before "1" wraps to a
    large index and is rejected. *)
Theorem available_cells_agree (b : Board) :
  board_ok b →
  (∀ cell, IsCellAvailable b cell = true ↔ cell ∈ GetAvailableCells b) ∧
  Properties (PlayAction_GetSchema b) !! "cell"
    = Some (JObject (<["type" := JString "string"]>
                       (<["description" := JString "Cell number (1-9)"]>
                          {[ "enum" := json_strings (GetAvailableCells b) ]})))
  ∧ ∀ cell, IsCellAvailable b cell = true →
      ∃ i, i ≤ 8 ∧ cell = cell_name i ∧ b !! i = Some "".
Proof.
  intros Hb.
  assert (Hlook : ∀ i, i ≤ 8 → (b !!! i = "" ↔ b !! i = Some ""))
    by (intros i Hi; by apply board_lookup).
  split; [|split].
  - intros cell. rewrite IsCellAvailable_true.
    unfold GetAvailableCells. rewrite elem_of_available_from. split.
    + intros (i & Hi & -> & Hfree). exists i. by split; [apply Hlook|].
    + intros (j & Hj & ->). simpl.
      assert (Hj8 : j ≤ 8).
      { apply lookup_lt_Some in Hj. unfold board_ok in Hb. lia. }
      exists j. split; [done|]. split; [done|]. by apply Hlook.
  - reflexivity.
  - intros cell Hav. by apply available_cell_is_empty.
Qed.

(** *** A validated play *)

Lemma PlayInCell_cell_name (b : Board) (i : nat) :
  i ≤ 8 → PlayInCell b (cell_name i) = Some (<[i := "O"]> b).
Proof.
  intros Hi. unfold PlayInCell, cell_name. cbv zeta.
  rewrite cell_name_index by done. by rewrite decide_True by lia.
Qed.

Lemma available_from_insert (k i : nat) (b : list string) :
  b !! i = Some "" →
  length (available_from k (<[i := "O"]> b)) + 1
  = length (available_from k b).
Proof.
  revert k i. induction b as [|cell rest IH]; intros k i Hi; [done|].
  destruct i as [|i]; simpl in Hi |- *.
  - injection Hi as ->. repeat case_decide; try done. simpl. lia.
  - destruct (decide (cell = "")); simpl; rewrite <- (IH (S k) i Hi); lia.
Qed.

Lemma IsCellAvailable_taken (b : Board) (i : nat) :
  i ≤ 8 → i < length b →
  IsCellAvailable (<[i := "O"]> b) (cell_name i) = false.
Proof.
  intros Hi Hlen. apply not_true_is_false. intros Hav.
  apply IsCellAvailable_true in Hav as (j & Hj & Heq & Hfree).
  apply cell_name_inj in Heq as [Heq _].
  assert (j = i) as ->.
  { apply (f_equal nat_of_ascii) in Heq.
    rewrite !nat_ascii_embedding in Heq by lia. lia. }
  by rewrite list_lookup_total_insert_eq in Hfree.
Qed.

Lemma IsCellAvailable_other (b : Board) (i : nat) (other : string) :
  other ≠ cell_name i →
  IsCellAvailable (<[i := "O"]> b) other = IsCellAvailable b other.
Proof.
  intros Hne. apply eq_true_iff_eq. rewrite !IsCellAvailable_true.
  split; intros (j & Hj & -> & Hfree); exists j;
    (split; [done|]; split; [done|]);
    (assert (i ≠ j) by (intros ->; done));
    by rewrite list_lookup_total_insert_ne in * by done.
Qed.

(** X21. A play that [Validate] accepted is safe to execute and takes
    the cell.  On a board of nine cells, when [PlayAction.Validate]
    reports success its state is the name of an empty cell; [Execute]
    on that state does not panic and writes "O" into exactly that cell
    of a board that still has nine cells; afterwards the cell is no
    longer available while the availability of every other cell is
    unchanged, the list of available cells is shorter by one, and the
    same action data is now rejected. *)
Theorem validated_play_takes_the_cell
    (unmarshal : json → PlayParams → PlayParams + error)
    (b : Board) (data : RawMessage) (st : option string)
    (res : ExecutionResult) :
  board_ok b →
  PlayAction_Validate unmarshal b data = (st, res) →
  Successful res = true →
  ∃ (cell : string) (i : nat) (b' : Board),
    st = Some cell ∧ cell = cell_name i ∧ i ≤ 8 ∧
    b !! i = Some "" ∧
    PlayAction_Execute b st = Some b' ∧
    b' = <[i := "O"]> b ∧
    board_ok b' ∧
    IsCellAvailable b' cell = false ∧
    (∀ other, other ≠ cell →
       IsCellAvailable b' other = IsCellAvailable b other) ∧
    length (GetAvailableCells b') + 1 = length (GetAvailableCells b) ∧
    ∃ res', PlayAction_Validate unmarshal b' data = (None, res') ∧
            Successful res' = false.
Proof.
  intros Hb Hval Hok. unfold PlayAction_Validate in Hval.
  destruct (ParseActionData unmarshal data {| Cell := "" |})
    as [params|e] eqn:Hparse; [|by injection Hval as <- <-].
  destruct (decide (Cell params = "")) as [Hempty|Hcell];
    [by injection Hval as <- <-|].
  destruct (IsCellAvailable b (Cell params)) eqn:Hav; simpl in Hval;
    [|by injection Hval as <- <-].
  injection Hval as <- <-.
  destruct (available_cell_is_empty b _ Hb Hav) as (i & Hi & Hname & Hfree).
  assert (Hlen : i < length b) by (unfold board_ok in Hb; lia).
  exists (Cell params), i, (<[i := "O"]> b).
  split; [done|]. split; [done|]. split; [done|]. split; [done|].
  split; [simpl; rewrite Hname; by apply PlayInCell_cell_name|].
  split; [done|].
  split; [unfold board_ok; by rewrite length_insert|].
  split; [rewrite Hname; by apply IsCellAvailable_taken|].
  split; [intros other Hne; apply IsCellAvailable_other; by rewrite <- Hname|].
  split; [by apply available_from_insert|].
  eexists. unfold PlayAction_Validate. rewrite Hparse.
  rewrite decide_False by done.
  rewrite Hname at 1. rewrite (IsCellAvailable_taken b i Hi Hlen). simpl.
  split; reflexivity.
Qed.

(** *** The item giver *)

(** X22. What [GiveItemAction.Validate] lets through.  It reports
    success exactly when the data decodes and the item is one of
    "sword", "shield", "potion" and "cookies", and then the state it
    returns holds that item and a quantity of at least 1: the decoded
    quantity when it is positive, however large (the maximum of 99 that
    the schema announces is not checked), and 1 otherwise.  On failure
    the state is [nil]. *)
Theorem GiveItemAction_Validate_spec
    (unmarshal : json → ItemParams → ItemParams + error)
    (data : RawMessage) (st : option ItemParams) (res : ExecutionResult) :
  GiveItemAction_Validate unmarshal validItems data = (st, res) →
  (Successful res = false → st = None) ∧
  (Successful res = true →
   ∃ parsed p,
     ParseActionData unmarshal data {| Item := ""; Quantity := 0 |}
       = inl parsed ∧
     st = Some p ∧
     Item p = Item parsed ∧
     Item p ∈ ["sword"; "shield"; "potion"; "cookies"] ∧
     (1 ≤ Quantity p)%Z ∧
     Quantity p = Z.max 1 (Quantity parsed)) ∧
  (∀ parsed,
     ParseActionData unmarshal data {| Item := ""; Quantity := 0 |}
       = inl parsed →
     Item parsed ∈ ["sword"; "shield"; "potion"; "cookies"] →
     Successful res = true).
Proof.
  intros Hval. unfold GiveItemAction_Validate in Hval.
  destruct (ParseActionData unmarshal data _) as [parsed|e] eqn:Hparse.
  2: { injection Hval as <- <-. by repeat split. }
  assert (Hvalid : is_valid validItems (Item parsed) = true ↔
                   Item parsed ∈ ["sword"; "shield"; "potion"; "cookies"]).
  { unfold is_valid, validItems. rewrite !elem_of_cons.
    destruct (decide (Item parsed = "sword")) as [->|?];
      [by simplify_map_eq; split; [left|]|].
    destruct (decide (Item parsed = "shield")) as [->|?];
      [by simplify_map_eq; split; [right; left|]|].
    destruct (decide (Item parsed = "potion")) as [->|?];
      [by simplify_map_eq; split; [right; right; left|]|].
    destruct (decide (Item parsed = "cookies")) as [->|?];
      [by simplify_map_eq; split; [right; right; right; left|]|].
    simplify_map_eq. split; [done|].
    intros [?|[?|[?|[?|?%not_elem_of_nil]]]]; done. }
  destruct (is_valid validItems (Item parsed)) eqn:Hv; simpl in Hval;
    injection Hval as <- <-.
  - split; [done|]. split; [|done]. intros _.
    destruct (decide (Quantity parsed ≤ 0)%Z) as [Hq|Hq].
    + exists parsed, {| Item := Item parsed; Quantity := 1 |}. simpl.
      repeat split; try done; try (by apply Hvalid); lia.
    + exists parsed, parsed.
      repeat split; try done; try (by apply Hvalid); lia.
  - split; [done|]. split; [done|]. intros parsed' [= <-] Hin.
    apply Hvalid in Hin. done.
Qed.

(** *** On sample data *)

Lemma available_cells_agree_witness :
  board_ok middle_taken ∧
  IsCellAvailable middle_taken "1" = true ∧
  "1" ∈ GetAvailableCells middle_taken ∧
  "5" ∉ GetAvailableCells middle_taken.
Proof.
  split; [reflexivity|].
  destruct (available_cells_agree middle_taken eq_refl) as (Hiff & _ & _).
  split; [reflexivity|]. split.
  - by apply Hiff.
  - intros Hin. by apply Hiff in Hin.
Defined.

Lemma validated_play_takes_the_cell_witness :
  board_ok middle_taken ∧
  PlayAction_Validate unmarshal_play middle_taken play_corner
    = (Some "1", NewSuccessResult "Playing in cell 1") ∧
  ∃ b',
    PlayAction_Execute middle_taken (Some "1") = Some b' ∧
    b' = <[0 := "O"]> middle_taken ∧
    IsCellAvailable b' "1" = false ∧
    length (GetAvailableCells b') + 1
    = length (GetAvailableCells middle_taken).
Proof.
  split; [reflexivity|]. split; [reflexivity|].
  destruct (validated_play_takes_the_cell unmarshal_play middle_taken
              play_corner (Some "1") (NewSuccessResult "Playing in cell 1")
              eq_refl eq_refl eq_refl)
    as (cell & i & b' & [= <-] & Hname & Hi & _ & E & Hb' & _ & Htaken & _
        & Hcount & _).
  assert (i = 0) as ->.
  { unfold cell_name in Hname. injection Hname as Hc.
    destruct i as [|i]; [done|].
    do 8 (destruct i as [|i]; [discriminate Hc|]). lia. }
  by exists b'.
Defined.

Lemma GiveItemAction_Validate_spec_witness :
  GiveItemAction_Validate unmarshal_item validItems many_potions
    = (Some {| Item := "potion"; Quantity := 500 |},
       NewSuccessResult "Giving item to player") ∧
  ∃ p,
    Item p = "potion" ∧ Quantity p = 500%Z.
Proof.
  split; [reflexivity|].
  destruct (GiveItemAction_Validate_spec unmarshal_item many_potions
              (Some {| Item := "potion"; Quantity := 500 |})
              (NewSuccessResult "Giving item to player") eq_refl)
    as (_ & Hok & _).
  destruct (Hok eq_refl) as (parsed & p & Hparse & [= <-] & _).
  by exists {| Item := "potion"; Quantity := 500 |}.
Defined.

End ExampleFacts.
